(** * xid: a 12-byte, base32-hex encoded, time-prefixed identifier

    A shallow embedding of [id.go] and the properties of its codec, its
    generator and its SQL adapter.

    Representation choices, following the Go source:
    - a [byte] (uint8) is a [Z] in [0, 256); shifts on bytes wrap at 8 bits;
    - a slice [[]byte] is a [list Z]; indexing a slice out of range panics;
    - [ID] ([[12]byte]) is a [list Z] of length 12; it is a value type, so a
      callee that receives an [ID] works on a copy;
    - a run-time panic is a value of [result], never a missing result;
    - the package-level counter and the system random source are threaded
      through the generator as an explicit [World]. *)

From Stdlib Require Import ZArith List Lia String Ascii.
From stdpp Require Import base decidable option list.
Import ListNotations.
Local Open Scope Z_scope.

(** ** Machine integers *)

Module Go.

(** [byte(x)]: conversion to uint8 keeps the low 8 bits. *)
Definition byte (x : Z) : Z := x mod 256.

(** [uint64(x)] of an int64, and wrap-around of uint64 arithmetic. *)
Definition uint64 (x : Z) : Z := x mod 2 ^ 64.

(** [int64(x)] of a uint64: two's complement reinterpretation. *)
Definition int64 (x : Z) : Z := (x + 2 ^ 63) mod 2 ^ 64 - 2 ^ 63.

(** [a >> n] and [a << n] on uint8 operands. *)
Definition shr (a n : Z) : Z := Z.shiftr a n.
Definition shl8 (a n : Z) : Z := byte (Z.shiftl a n).

(** [a << n] on uint64 operands. *)
Definition shl64 (a n : Z) : Z := uint64 (Z.shiftl a n).

Definition and (a b : Z) : Z := Z.land a b.
Definition or (a b : Z) : Z := Z.lor a b.

End Go.

(** Go gives [<<], [>>] and [&] the precedence of [*], and [|] that of [+]. *)
Declare Scope go_scope.
Delimit Scope go_scope with go.
Notation "a >>> n" := (Go.shr a n) (at level 40, left associativity) : go_scope.
Notation "a <<< n" := (Go.shl8 a n) (at level 40, left associativity) : go_scope.
Notation "a .& b" := (Go.and a b) (at level 40, left associativity) : go_scope.
Notation "a .| b" := (Go.or a b) (at level 50, left associativity) : go_scope.
Local Open Scope go_scope.

(** ** Panics *)

Inductive panic : Type :=
| IndexOutOfRange (i len : nat)
| RandFailure.

Inductive result (A : Type) : Type :=
| Done (a : A)
| Panics (p : panic).
Arguments Done {A} a.
Arguments Panics {A} p.

Definition rbind {A B} (m : result A) (k : A -> result B) : result B :=
  match m with
  | Done a => k a
  | Panics p => Panics p
  end.

Notation "x <- m ;; k" := (rbind m (fun x => k))
  (at level 100, m at next level, right associativity).

(** [s[i]] as an rvalue, and [s[i] = v], on a slice. *)
Definition index (s : list Z) (i : nat) : result Z :=
  match s !! i with
  | Some b => Done b
  | None => Panics (IndexOutOfRange i (length s))
  end.

Definition store (s : list Z) (i : nat) (v : Z) : result (list Z) :=
  if (i <? length s)%nat then Done (<[i:=v]> s)
  else Panics (IndexOutOfRange i (length s)).

(** [make([]byte, n)] *)
Definition make (n : nat) : list Z := replicate n 0.

(** [copy(dst, src)]: copies [min (len dst) (len src)] elements. *)
Definition copy (dst src : list Z) : list Z :=
  let n := Nat.min (length dst) (length src) in
  take n src ++ drop n dst.

(** ** Constants and tables *)

Definition ID : Type := list Z.

Definition encodedLen : nat := 20.
Definition rawLen : nat := 12.

Definition bytes_of_string (s : string) : list Z :=
  map (fun a => Z.of_N (N_of_ascii a)) (list_ascii_of_string s).

Definition encoding : list Z :=
  bytes_of_string "0123456789abcdefghijklmnopqrstuv".

(** [var dec [256]byte]. Indexing a 256-element array with a byte needs no
    bounds check. *)
Definition dec_zero : list Z := replicate 256 0.

(** [func init()] *)
Definition init (dec : list Z) : list Z :=
  let dec := fold_left (fun d i => <[i:=0xFF]> d) (seq 0 (length dec)) dec in
  fold_left
    (fun d i => <[Z.to_nat (nth i encoding 0) := Go.byte (Z.of_nat i)]> d)
    (seq 0 (length encoding)) dec.

Definition dec : list Z := Eval vm_compute in init dec_zero.

Definition dec_at (c : Z) : Z := nth (Z.to_nat c) dec 0.

(** ** Codec *)

(** [dst[k] = encoding[sym]] *)
Definition put (dst : list Z) (k : nat) (sym : Z) : result (list Z) :=
  c <- index encoding (Z.to_nat sym) ;; store dst k c.

(** [func encode(dst, id []byte)] *)
Definition encode (dst id : list Z) : result (list Z) :=
  a <- index id 0 ;;
  dst <- put dst 0 (a >>> 3) ;;
  a <- index id 1 ;; b <- index id 0 ;;
  dst <- put dst 1 ((a >>> 6) .& 0x1F .| (b <<< 2) .& 0x1F) ;;
  a <- index id 1 ;;
  dst <- put dst 2 ((a >>> 1) .& 0x1F) ;;
  a <- index id 2 ;; b <- index id 1 ;;
  dst <- put dst 3 ((a >>> 4) .& 0x1F .| (b <<< 4) .& 0x1F) ;;
  a <- index id 3 ;; b <- index id 2 ;;
  dst <- put dst 4 (a >>> 7 .| (b <<< 1) .& 0x1F) ;;
  a <- index id 3 ;;
  dst <- put dst 5 ((a >>> 2) .& 0x1F) ;;
  a <- index id 4 ;; b <- index id 3 ;;
  dst <- put dst 6 (a >>> 5 .| (b <<< 3) .& 0x1F) ;;
  a <- index id 4 ;;
  dst <- put dst 7 (a .& 0x1F) ;;
  a <- index id 5 ;;
  dst <- put dst 8 (a >>> 3) ;;
  a <- index id 6 ;; b <- index id 5 ;;
  dst <- put dst 9 ((a >>> 6) .& 0x1F .| (b <<< 2) .& 0x1F) ;;
  a <- index id 6 ;;
  dst <- put dst 10 ((a >>> 1) .& 0x1F) ;;
  a <- index id 7 ;; b <- index id 6 ;;
  dst <- put dst 11 ((a >>> 4) .& 0x1F .| (b <<< 4) .& 0x1F) ;;
  a <- index id 8 ;; b <- index id 7 ;;
  dst <- put dst 12 (a >>> 7 .| (b <<< 1) .& 0x1F) ;;
  a <- index id 8 ;;
  dst <- put dst 13 ((a >>> 2) .& 0x1F) ;;
  a <- index id 9 ;; b <- index id 8 ;;
  dst <- put dst 14 ((a >>> 5) .| (b <<< 3) .& 0x1F) ;;
  a <- index id 9 ;;
  dst <- put dst 15 (a .& 0x1F) ;;
  a <- index id 10 ;;
  dst <- put dst 16 (a >>> 3) ;;
  a <- index id 11 ;; b <- index id 10 ;;
  dst <- put dst 17 ((a >>> 6) .& 0x1F .| (b <<< 2) .& 0x1F) ;;
  a <- index id 11 ;;
  dst <- put dst 18 ((a >>> 1) .& 0x1F) ;;
  a <- index id 11 ;;
  put dst 19 ((a <<< 4) .& 0x1F).

(** [func (id ID) String() string] *)
Definition String (id : ID) : result (list Z) :=
  let text := make encodedLen in
  encode text id.

(** [func (id ID) MarshalText() ([]byte, error)]; the error is always nil. *)
Definition MarshalText (id : ID) : result (list Z) :=
  let text := make encodedLen in
  encode text id.

(** [func decode(id *ID, src []byte)]. The stores go through a pointer to a
    12-element array at constant indices, which the compiler checks. *)
Definition decode (id : ID) (src : list Z) : result ID :=
  a <- index src 0 ;; b <- index src 1 ;;
  let id := <[0%nat := dec_at a <<< 3 .| dec_at b >>> 2]> id in
  a <- index src 1 ;; b <- index src 2 ;; c <- index src 3 ;;
  let id := <[1%nat := dec_at a <<< 6 .| dec_at b <<< 1 .| dec_at c >>> 4]> id in
  a <- index src 3 ;; b <- index src 4 ;;
  let id := <[2%nat := dec_at a <<< 4 .| dec_at b >>> 1]> id in
  a <- index src 4 ;; b <- index src 5 ;; c <- index src 6 ;;
  let id := <[3%nat := dec_at a <<< 7 .| dec_at b <<< 2 .| dec_at c >>> 3]> id in
  a <- index src 6 ;; b <- index src 7 ;;
  let id := <[4%nat := dec_at a <<< 5 .| dec_at b]> id in
  a <- index src 8 ;; b <- index src 9 ;;
  let id := <[5%nat := dec_at a <<< 3 .| dec_at b >>> 2]> id in
  a <- index src 9 ;; b <- index src 10 ;; c <- index src 11 ;;
  let id := <[6%nat := dec_at a <<< 6 .| dec_at b <<< 1 .| dec_at c >>> 4]> id in
  a <- index src 11 ;; b <- index src 12 ;;
  let id := <[7%nat := dec_at a <<< 4 .| dec_at b >>> 1]> id in
  a <- index src 12 ;; b <- index src 13 ;; c <- index src 14 ;;
  let id := <[8%nat := dec_at a <<< 7 .| dec_at b <<< 2 .| dec_at c >>> 3]> id in
  a <- index src 14 ;; b <- index src 15 ;;
  let id := <[9%nat := dec_at a <<< 5 .| dec_at b]> id in
  a <- index src 16 ;; b <- index src 17 ;;
  let id := <[10%nat := dec_at a <<< 3 .| dec_at b >>> 2]> id in
  a <- index src 17 ;; b <- index src 18 ;; c <- index src 19 ;;
  let id := <[11%nat := dec_at a <<< 6 .| dec_at b <<< 1 .| dec_at c >>> 4]> id in
  Done id.

(** Errors returned as values. *)
Inductive error : Type :=
| ErrInvalidID
| ErrScanLength (len : nat)
| ErrScanType (T : string).

(** The [for _, c := range text] loop of [UnmarshalText], with its early
    return: [true] when some byte maps to the sentinel. *)
Fixpoint range_invalid (text : list Z) : bool :=
  match text with
  | [] => false
  | c :: rest => if dec_at c =? 0xFF then true else range_invalid rest
  end.

(** [func (id *ID) UnmarshalText(text []byte) error]: the receiver after
    the call, and the error ([None] is nil). *)
Definition UnmarshalText (id : ID) (text : list Z) : result (ID * option error) :=
  if negb (length text =? encodedLen)%nat then Done (id, Some ErrInvalidID)
  else if range_invalid text then Done (id, Some ErrInvalidID)
  else id <- decode id text ;; Done (id, None).

(** [func FromString(id string) (ID, error)] *)
Definition FromString (id : list Z) : result (ID * option error) :=
  let i := replicate rawLen 0 in
  UnmarshalText i id.

(** ** Generator *)

(** [encoding/binary]: [BigEndian.PutUint64] and [BigEndian.Uint64], each
    with its early bounds check [_ = b[7]]. *)
Definition PutUint64 (b : list Z) (v : Z) : result (list Z) :=
  _ <- index b 7 ;;
  let b := <[0%nat := Go.byte (v >>> 56)]> b in
  let b := <[1%nat := Go.byte (v >>> 48)]> b in
  let b := <[2%nat := Go.byte (v >>> 40)]> b in
  let b := <[3%nat := Go.byte (v >>> 32)]> b in
  let b := <[4%nat := Go.byte (v >>> 24)]> b in
  let b := <[5%nat := Go.byte (v >>> 16)]> b in
  let b := <[6%nat := Go.byte (v >>> 8)]> b in
  let b := <[7%nat := Go.byte v]> b in
  Done b.

Definition Uint64 (b : list Z) : result Z :=
  _ <- index b 7 ;;
  Done (nth 7 b 0 .| Go.shl64 (nth 6 b 0) 8 .| Go.shl64 (nth 5 b 0) 16
        .| Go.shl64 (nth 4 b 0) 24 .| Go.shl64 (nth 3 b 0) 32
        .| Go.shl64 (nth 2 b 0) 40 .| Go.shl64 (nth 1 b 0) 48
        .| Go.shl64 (nth 0 b 0) 56).

(** The state outside the identifiers: the package variable [atomicCount]
    and the bytes the system random source will deliver next. A source that
    cannot fill a buffer reports an error. *)
Record World : Type := mkWorld { atomicCount : Z; entropy : list Z }.

Definition M (A : Type) : Type := World -> result (A * World).

Definition ret {A} (a : A) : M A := fun w => Done (a, w).

Definition mbind {A B} (m : M A) (k : A -> M B) : M B :=
  fun w => match m w with
           | Done (a, w') => k a w'
           | Panics p => Panics p
           end.

Definition throw {A} (p : panic) : M A := fun _ => Panics p.

Definition lift {A} (r : result A) : M A :=
  fun w => match r with Done a => Done (a, w) | Panics p => Panics p end.

Notation "x <~ m ;; k" := (mbind m (fun x => k))
  (at level 100, m at next level, right associativity).

(** [rand.Reader.Read(b)]: the new contents of [b], or [None] for
    [err != nil]. The system source either fills the whole buffer or fails;
    the callers ignore the byte count. *)
Definition rand_Read (b : list Z) : M (option (list Z)) :=
  fun w =>
    let n := length b in
    if (n <=? length (entropy w))%nat
    then Done (Some (take n (entropy w)),
               mkWorld (atomicCount w) (drop n (entropy w)))
    else Done (None, w).

(** [atomic.AddUint64(&atomicCount, delta)]: adds and returns the new value. *)
Definition AddUint64 (delta : Z) : M Z :=
  fun w =>
    let new := Go.uint64 (atomicCount w + delta) in
    Done (new, mkWorld new (entropy w)).

(** [a[lo:hi]] of an array or slice, and the write-back of a buffer that
    aliases it. *)
Definition slice (a : list Z) (lo hi : nat) : list Z := take (hi - lo) (drop lo a).

Definition write_slice (a : list Z) (lo hi : nat) (b : list Z) : list Z :=
  take lo a ++ b ++ drop hi a.

(** [func NewFromTime(t time.Time) ID]; [t] is given by [t.UnixNano()]. *)
Definition NewFromTime (t : Z) : M ID :=
  let id := replicate rawLen 0 in
  id <~ lift (PutUint64 id (Go.uint64 t)) ;;
  r <~ rand_Read (slice id 6 12) ;;
  match r with
  | None => throw RandFailure
  | Some b => ret (write_slice id 6 12 b)
  end.

Definition Concurrency : Type := Z.
Definition NANO : Concurrency := 0.
Definition LOW : Concurrency := 1.
Definition MEDIUM : Concurrency := 2.
Definition HIGH : Concurrency := 3.

(** The four [Apply...Concurrence(id ID)] functions take the array by value:
    the stores below go to the callee's copy, and nothing is returned. *)
Definition ApplyNanoConcurrence (id : ID) : M unit :=
  adder <~ AddUint64 1 ;;
  let id := <[6%nat := (Go.byte (Go.shl64 adder 4) .& 0xF0) .| (nth 6 id 0 .& 0xF)]> id in
  ret tt.

Definition ApplyLowConcurrence (id : ID) : M unit :=
  adder <~ AddUint64 1 ;;
  let id := <[6%nat := Go.byte adder]> id in
  ret tt.

Definition ApplyMediumConcurrence (id : ID) : M unit :=
  adder <~ AddUint64 1 ;;
  let id := <[6%nat := Go.byte (adder >>> 8)]> id in
  let id := <[7%nat := Go.byte adder]> id in
  ret tt.

Definition ApplyHighConcurrence (id : ID) : M unit :=
  adder <~ AddUint64 1 ;;
  let id := <[6%nat := Go.byte (adder >>> 16)]> id in
  let id := <[7%nat := Go.byte (adder >>> 8)]> id in
  let id := <[8%nat := Go.byte adder]> id in
  ret tt.

(** [func NewWithConcurrence(currencyLevel Concurrency, t time.Time) ID] *)
Definition NewWithConcurrence (currencyLevel : Concurrency) (t : Z) : M ID :=
  id <~ NewFromTime t ;;
  _ <~ (if currencyLevel =? NANO then ApplyNanoConcurrence id
        else if currencyLevel =? LOW then ApplyLowConcurrence id
        else if currencyLevel =? MEDIUM then ApplyMediumConcurrence id
        else if currencyLevel =? HIGH then ApplyHighConcurrence id
        else ret tt) ;;
  ret id.

(** [func randUInt64() uint64], the initialiser of [atomicCount]. The four
    index expressions are evaluated left to right. *)
Definition randUInt64 : M Z :=
  let b := make 2 in
  r <~ rand_Read b ;;
  match r with
  | None => throw RandFailure
  | Some b =>
      b0 <~ lift (index b 0) ;;
      b1 <~ lift (index b 1) ;;
      b2 <~ lift (index b 2) ;;
      b3 <~ lift (index b 3) ;;
      ret (Go.shl64 b0 32 .| Go.shl64 b1 16 .| Go.shl64 b2 8 .| b3)
  end.

(** ** Accessors and the SQL adapter *)

(** [func (id ID) Time() time.Time]; the result is given by its nanoseconds
    since the epoch, the argument of [time.Unix(0, nanos)]. *)
Definition Time (id : ID) : result Z :=
  let nowBytes := make 8 in
  let nowBytes := write_slice nowBytes 0 6 (copy (slice nowBytes 0 6) (slice id 0 6)) in
  v <- Uint64 nowBytes ;;
  let nanos := Go.int64 v in
  Done nanos.

(** A [driver.Value] / [interface{}] by dynamic type; [VOther] carries the
    type name that [%T] prints. *)
Inductive value : Type :=
| VString (val : list Z)
| VBytes (val : list Z)
| VOther (T : string).

(** [func (id ID) Value() (driver.Value, error)] *)
Definition Value (id : ID) : value * option error := (VBytes id, None).

(** [func (id *ID) Scan(value interface{}) (err error)] *)
Definition Scan (id : ID) (v : value) : result (ID * option error) :=
  match v with
  | VString val => UnmarshalText id val
  | VBytes val =>
      if negb (length val =? 12)%nat
      then Done (id, Some (ErrScanLength (length val)))
      else Done (copy id val, None)
  | VOther T => Done (id, Some (ErrScanType T))
  end.

(** [func (id ID) Counter() uint64]; [b := id[6:]] is a slice of the array. *)
Definition Counter (id : ID) : result Z :=
  let b := drop 6 id in
  b0 <- index b 0 ;; b1 <- index b 1 ;; b2 <- index b 2 ;;
  b3 <- index b 3 ;; b4 <- index b 4 ;; b5 <- index b 5 ;;
  Done (Go.uint64 (Go.shl64 b0 40 .| Go.shl64 b1 32 .| Go.shl64 b2 24
                   .| Go.shl64 b3 16 .| Go.shl64 b4 8 .| b5)).

(** [func New() ID] and [func NewConcurrence() ID]; [now] is the reading
    [time.Now().UnixNano()] of the system clock. *)
Definition New (now : Z) : M ID := NewFromTime now.

Definition NewConcurrence (now : Z) : M ID := NewWithConcurrence LOW now.

(** ** Well-formed data, orders and values used in the statements *)

Definition is_byte (b : Z) : Prop := 0 <= b < 256.
Definition is_bytes (l : list Z) : Prop := Forall is_byte l.

(** A digit in base [B]. *)
Definition is_digit (B d : Z) : Prop := 0 <= d < B.

(** A symbol is a 5-bit group. *)
Definition is_sym (s : Z) : Prop := 0 <= s < 32.

(** An [ID] is a 12-element array of bytes. *)
Definition wf_ID (id : ID) : Prop := length id = rawLen /\ is_bytes id.

(** The character that [encoding[s]] denotes for an in-range symbol. *)
Definition enc_char (s : Z) : Z := nth (Z.to_nat s) encoding 0.

(** Membership in the alphabet. *)
Definition in_alphabet (c : Z) : Prop := In c encoding.
Definition in_alphabetb (c : Z) : bool := existsb (Z.eqb c) encoding.

(** Lexicographic comparison of byte sequences, as [bytes.Compare] and the
    comparison of Go strings do it: [true] when [x <= y]. *)
Fixpoint lex_leb (x y : list Z) : bool :=
  match x, y with
  | [], _ => true
  | _ :: _, [] => false
  | a :: x', b :: y' =>
      if a <? b then true else if b <? a then false else lex_leb x' y'
  end.

(** The number a big-endian digit sequence denotes in base [B]. *)
Definition be_val (B : Z) (l : list Z) : Z :=
  fold_left (fun acc d => acc * B + d) l 0.

(** The twenty 5-bit groups that the lines of [encode] cut out of twelve
    bytes, and the twelve bytes that the lines of [decode] splice from twenty
    groups, written with division and remainder. *)
Definition symbols (id : list Z) : list Z :=
  match id with
  | [b0; b1; b2; b3; b4; b5; b6; b7; b8; b9; b10; b11] =>
    [ b0 / 8; b1 / 64 + (b0 mod 8) * 4; (b1 / 2) mod 32; b2 / 16 + (b1 mod 2) * 16;
      b3 / 128 + (b2 mod 16) * 2; (b3 / 4) mod 32; b4 / 32 + (b3 mod 4) * 8; b4 mod 32;
      b5 / 8; b6 / 64 + (b5 mod 8) * 4; (b6 / 2) mod 32; b7 / 16 + (b6 mod 2) * 16;
      b8 / 128 + (b7 mod 16) * 2; (b8 / 4) mod 32; b9 / 32 + (b8 mod 4) * 8; b9 mod 32;
      b10 / 8; b11 / 64 + (b10 mod 8) * 4; (b11 / 2) mod 32; (b11 mod 2) * 16 ]
  | _ => []
  end.

Definition octets (syms : list Z) : list Z :=
  match syms with
  | [s0; s1; s2; s3; s4; s5; s6; s7; s8; s9; s10; s11; s12; s13; s14; s15;
     s16; s17; s18; s19] =>
    [ s0 * 8 + s1 / 4; (s1 mod 4) * 64 + s2 * 2 + s3 / 16; (s3 mod 16) * 16 + s4 / 2;
      (s4 mod 2) * 128 + s5 * 4 + s6 / 8; (s6 mod 8) * 32 + s7;
      s8 * 8 + s9 / 4; (s9 mod 4) * 64 + s10 * 2 + s11 / 16; (s11 mod 16) * 16 + s12 / 2;
      (s12 mod 2) * 128 + s13 * 4 + s14 / 8; (s14 mod 8) * 32 + s15;
      s16 * 8 + s17 / 4; (s17 mod 4) * 64 + s18 * 2 + s19 / 16 ]
  | _ => []
  end.

(** A run of [dst[k] = encoding[s]] stores at consecutive indices, the last
    of which ends the function. *)
Fixpoint put_all (dst : list Z) (k : nat) (syms : list Z) : result (list Z) :=
  match syms with
  | [] => Done dst
  | s :: rest =>
      match rest with
      | [] => put dst k s
      | _ :: _ => dst <- put dst k s ;; put_all dst (S k) rest
      end
  end.

(** Exhaustive checks over an initial segment of the naturals. *)
Definition below (n : nat) : list Z := map Z.of_nat (seq 0 n).
Definition all_below (n : nat) (P : Z -> bool) : bool := forallb P (below n).

(** ** Exhaustive checking *)

Lemma below_complete n z : 0 <= z < Z.of_nat n -> In z (below n).
Proof.
  intros Hz. unfold below. apply in_map_iff. exists (Z.to_nat z).
  split; [lia|]. apply in_seq. lia.
Qed.

Lemma all_below_sound n P :
  all_below n P = true -> forall z, 0 <= z < Z.of_nat n -> P z = true.
Proof.
  unfold all_below. rewrite forallb_forall. intros H z Hz.
  apply H, below_complete, Hz.
Qed.

Lemma all_below2_sound n m (P : Z -> Z -> bool) :
  all_below n (fun a => all_below m (P a)) = true ->
  forall a b, 0 <= a < Z.of_nat n -> 0 <= b < Z.of_nat m -> P a b = true.
Proof.
  intros H a b Ha Hb.
  apply (all_below_sound m (P a)); [|exact Hb].
  apply (all_below_sound n (fun a => all_below m (P a))); assumption.
Qed.

Lemma all_below3_sound n (P : Z -> Z -> Z -> bool) :
  all_below n (fun a => all_below n (fun b => all_below n (P a b))) = true ->
  forall a b c, 0 <= a < Z.of_nat n -> 0 <= b < Z.of_nat n ->
                0 <= c < Z.of_nat n -> P a b c = true.
Proof.
  intros H a b c Ha Hb Hc.
  apply (all_below_sound n (P a b)); [|exact Hc].
  apply (all_below2_sound n n (fun a b => all_below n (P a b))); assumption.
Qed.

(** Close [l = r] over bounded variables by enumerating them. *)
Ltac by_enum1 n a Ha :=
  apply Z.eqb_eq;
  match goal with
  | |- ?e = true =>
      let P := eval pattern a in e in
      match P with
      | ?F a => exact (all_below_sound n F ltac:(vm_compute; reflexivity) a Ha)
      end
  end.

Ltac by_enum2 n a b Ha Hb :=
  apply Z.eqb_eq;
  match goal with
  | |- ?e = true =>
      let P := eval pattern a, b in e in
      match P with
      | ?F a b =>
          exact (all_below2_sound n n F ltac:(vm_compute; reflexivity) a b Ha Hb)
      end
  end.

Ltac by_enum3 n a b c Ha Hb Hc :=
  apply Z.eqb_eq;
  match goal with
  | |- ?e = true =>
      let P := eval pattern a, b, c in e in
      match P with
      | ?F a b c =>
          exact (all_below3_sound n F ltac:(vm_compute; reflexivity) a b c Ha Hb Hc)
      end
  end.

(** ** The bit slicing of [encode], line by line, in arithmetic *)

Section EncodeLines.
Variables a b : Z.
Hypothesis Ha : is_byte a.
Hypothesis Hb : is_byte b.

Lemma enc_line_hi5 : a >>> 3 = a / 8.
Proof. by_enum1 256%nat a Ha. Qed.

Lemma enc_line_6_2 : (a >>> 6) .& 0x1F .| (b <<< 2) .& 0x1F = a / 64 + (b mod 8) * 4.
Proof. by_enum2 256%nat a b Ha Hb. Qed.

Lemma enc_line_1 : (a >>> 1) .& 0x1F = (a / 2) mod 32.
Proof. by_enum1 256%nat a Ha. Qed.

Lemma enc_line_4_4 : (a >>> 4) .& 0x1F .| (b <<< 4) .& 0x1F = a / 16 + (b mod 2) * 16.
Proof. by_enum2 256%nat a b Ha Hb. Qed.

Lemma enc_line_7_1 : a >>> 7 .| (b <<< 1) .& 0x1F = a / 128 + (b mod 16) * 2.
Proof. by_enum2 256%nat a b Ha Hb. Qed.

Lemma enc_line_2 : (a >>> 2) .& 0x1F = (a / 4) mod 32.
Proof. by_enum1 256%nat a Ha. Qed.

Lemma enc_line_5_3 : a >>> 5 .| (b <<< 3) .& 0x1F = a / 32 + (b mod 4) * 8.
Proof. by_enum2 256%nat a b Ha Hb. Qed.

Lemma enc_line_lo5 : a .& 0x1F = a mod 32.
Proof. by_enum1 256%nat a Ha. Qed.

Lemma enc_line_pad : (a <<< 4) .& 0x1F = (a mod 2) * 16.
Proof. by_enum1 256%nat a Ha. Qed.
End EncodeLines.

(** ** The bit splicing of [decode], line by line, in arithmetic *)

Section DecodeLines.
Variables x y z : Z.
Hypothesis Hx : is_sym x.
Hypothesis Hy : is_sym y.
Hypothesis Hz : is_sym z.

Lemma dec_line_3_2 : x <<< 3 .| y >>> 2 = x * 8 + y / 4.
Proof. by_enum2 32%nat x y Hx Hy. Qed.

Lemma dec_line_6_1_4 : x <<< 6 .| y <<< 1 .| z >>> 4 = (x mod 4) * 64 + y * 2 + z / 16.
Proof. by_enum3 32%nat x y z Hx Hy Hz. Qed.

Lemma dec_line_4_1 : x <<< 4 .| y >>> 1 = (x mod 16) * 16 + y / 2.
Proof. by_enum2 32%nat x y Hx Hy. Qed.

Lemma dec_line_7_2_3 : x <<< 7 .| y <<< 2 .| z >>> 3 = (x mod 2) * 128 + y * 4 + z / 8.
Proof. by_enum3 32%nat x y z Hx Hy Hz. Qed.

Lemma dec_line_5_0 : x <<< 5 .| y = (x mod 8) * 32 + y.
Proof. by_enum2 32%nat x y Hx Hy. Qed.
End DecodeLines.

(** ** The tables *)

Lemma index_encoding s :
  is_sym s -> index encoding (Z.to_nat s) = Done (enc_char s).
Proof.
  intros Hs. unfold index, enc_char.
  destruct (encoding !! Z.to_nat s) as [c|] eqn:E.
  - f_equal. symmetry. apply nth_lookup_Some with (d := 0) in E. exact E.
  - apply lookup_ge_None_1 in E. change (length encoding) with 32%nat in E.
    unfold is_sym in Hs. lia.
Qed.

Lemma put_ok dst k s :
  is_sym s -> (k < length dst)%nat ->
  put dst k s = Done (<[k := enc_char s]> dst).
Proof.
  intros Hs Hk. unfold put. rewrite (index_encoding s Hs). simpl.
  unfold store. apply Nat.ltb_lt in Hk. rewrite Hk. reflexivity.
Qed.

Lemma dec_enc_char s : is_sym s -> dec_at (enc_char s) = s.
Proof. intros Hs. by_enum1 32%nat s Hs. Qed.

Lemma enc_char_byte s : is_sym s -> is_byte (enc_char s).
Proof.
  intros Hs. unfold is_byte.
  assert (H : (0 <=? enc_char s) && (enc_char s <? 256) = true).
  { revert s Hs. apply (all_below_sound 32). vm_compute. reflexivity. }
  apply andb_true_iff in H. lia.
Qed.

(** ** [encode] and [decode] as arithmetic on the whole identifier *)

Ltac sym_bound := unfold is_sym, is_byte in *; Z.div_mod_to_equations; lia.

Ltac split_bytes H :=
  unfold is_bytes in H;
  repeat (apply Forall_cons_1 in H; destruct H as [? H]).

Lemma encode_bytes dst b0 b1 b2 b3 b4 b5 b6 b7 b8 b9 b10 b11 :
  length dst = 20%nat ->
  is_bytes [b0; b1; b2; b3; b4; b5; b6; b7; b8; b9; b10; b11] ->
  encode dst [b0; b1; b2; b3; b4; b5; b6; b7; b8; b9; b10; b11] =
  Done (map enc_char (symbols [b0; b1; b2; b3; b4; b5; b6; b7; b8; b9; b10; b11])).
Proof.
  intros Hd Hb. split_bytes Hb.
  unfold encode.
  cbn [index lookup list_lookup rbind].
  rewrite !enc_line_6_2, !enc_line_4_4, !enc_line_7_1, !enc_line_5_3 by assumption.
  rewrite !enc_line_1, !enc_line_2, !enc_line_pad, !enc_line_hi5, !enc_line_lo5
    by assumption.
  repeat (rewrite put_ok by (first [sym_bound | rewrite ?length_insert; lia]);
          cbn [rbind]).
  do 20 (destruct dst as [|? dst]; [discriminate Hd|]).
  destruct dst; [|discriminate Hd].
  reflexivity.
Qed.

Lemma encode_wf dst id :
  length dst = encodedLen -> wf_ID id ->
  encode dst id = Done (map enc_char (symbols id)).
Proof.
  intros Hd [Hlen Hb].
  do 12 (destruct id as [|? id]; [discriminate Hlen|]).
  destruct id; [|discriminate Hlen].
  apply encode_bytes; assumption.
Qed.

Lemma symbols_length id : wf_ID id -> length (symbols id) = 20%nat.
Proof.
  intros [Hlen _].
  do 12 (destruct id as [|? id]; [discriminate Hlen|]).
  destruct id; [|discriminate Hlen]. reflexivity.
Qed.

Lemma symbols_sym id : wf_ID id -> Forall is_sym (symbols id).
Proof.
  intros [Hlen Hb].
  do 12 (destruct id as [|? id]; [discriminate Hlen|]).
  destruct id; [|discriminate Hlen].
  split_bytes Hb. unfold symbols.
  repeat (apply Forall_cons_2; [sym_bound|]). apply Forall_nil_2.
Qed.

Lemma decode_chars id (src : list Z) :
  length id = rawLen -> length src = encodedLen ->
  Forall (fun c => is_sym (dec_at c)) src ->
  decode id src = Done (octets (map dec_at src)).
Proof.
  intros Hid Hlen Hs.
  do 20 (destruct src as [|? src]; [discriminate Hlen|]).
  destruct src; [|discriminate Hlen].
  repeat (apply Forall_cons_1 in Hs; destruct Hs as [? Hs]).
  unfold decode.
  cbn [index lookup list_lookup rbind].
  rewrite !dec_line_6_1_4, !dec_line_7_2_3 by assumption.
  rewrite !dec_line_3_2, !dec_line_4_1, !dec_line_5_0 by assumption.
  do 12 (destruct id as [|? id]; [discriminate Hid|]).
  destruct id; [|discriminate Hid].
  reflexivity.
Qed.

Lemma octets_symbols id : wf_ID id -> octets (symbols id) = id.
Proof.
  intros [Hlen Hb].
  do 12 (destruct id as [|? id]; [discriminate Hlen|]).
  destruct id; [|discriminate Hlen].
  split_bytes Hb.
  unfold symbols, octets, is_byte in *.
  repeat f_equal; Z.div_mod_to_equations; lia.
Qed.

Lemma map_dec_enc syms :
  Forall is_sym syms -> map dec_at (map enc_char syms) = syms.
Proof.
  induction 1 as [|s l Hs _ IH]; simpl; [reflexivity|].
  rewrite dec_enc_char by exact Hs. f_equal. exact IH.
Qed.

Lemma enc_chars_valid syms :
  Forall is_sym syms -> Forall (fun c => is_sym (dec_at c)) (map enc_char syms).
Proof.
  induction 1 as [|s l Hs _ IH]; simpl; constructor; [|exact IH].
  rewrite dec_enc_char by exact Hs. exact Hs.
Qed.

(** ** Round trip *)

(** C1. For every 12-byte identifier [x], [encode] fills a 20-byte buffer
    without panicking, and [decode] of that text into any identifier yields
    [x] again: decode(encode(x)) = x. *)
Theorem decode_encode_roundtrip (x id0 : ID) (dst : list Z) :
  wf_ID x -> length id0 = rawLen -> length dst = encodedLen ->
  exists text,
    encode dst x = Done text /\ length text = encodedLen /\
    decode id0 text = Done x.
Proof.
  intros Hx Hid Hd.
  exists (map enc_char (symbols x)).
  split; [apply encode_wf; assumption|].
  split; [rewrite length_map; apply symbols_length, Hx|].
  rewrite decode_chars.
  - rewrite map_dec_enc by (apply symbols_sym, Hx).
    rewrite octets_symbols by exact Hx. reflexivity.
  - exact Hid.
  - rewrite length_map. apply symbols_length, Hx.
  - apply enc_chars_valid, symbols_sym, Hx.
Qed.

Lemma decode_encode_roundtrip_witness :
  exists text,
    encode (make encodedLen)
      [0x4d; 0x88; 0xe1; 0x5b; 0x60; 0xf4; 0x86; 0xe4; 0x28; 0x41; 0x2d; 0xc9]
    = Done text /\
    length text = encodedLen /\
    decode (replicate rawLen 0) text
    = Done [0x4d; 0x88; 0xe1; 0x5b; 0x60; 0xf4; 0x86; 0xe4; 0x28; 0x41; 0x2d; 0xc9].
Proof.
  apply decode_encode_roundtrip; [split; [reflexivity|] | reflexivity | reflexivity].
  repeat (apply Forall_cons_2; [unfold is_byte; lia|]). apply Forall_nil_2.
Defined.

(** The codec on a known identifier. *)
Example String_known :
  String [0x4d; 0x88; 0xe1; 0x5b; 0x60; 0xf4; 0x86; 0xe4; 0x28; 0x41; 0x2d; 0xc9]
  = Done (bytes_of_string "9m4e2mr0ui3e8a215n4g").
Proof. vm_compute. reflexivity. Qed.

Example FromString_known :
  FromString (bytes_of_string "9m4e2mr0ui3e8a215n4g")
  = Done ([0x4d; 0x88; 0xe1; 0x5b; 0x60; 0xf4; 0x86; 0xe4; 0x28; 0x41; 0x2d; 0xc9],
          None).
Proof. vm_compute. reflexivity. Qed.

Example FromString_bad_char :
  FromString (bytes_of_string "9m4e2mr0ui3e8a215n4z")
  = Done (replicate 12 0, Some ErrInvalidID).
Proof. vm_compute. reflexivity. Qed.

(** C9. Encoding the identifier of twelve zero bytes yields the character
    ['0'] twenty times. *)
Theorem String_zero :
  String (replicate 12 0) = Done (bytes_of_string "00000000000000000000").
Proof. vm_compute. reflexivity. Qed.

(** ** Order *)

Section Positional.
Variable B : Z.
Hypothesis HB : 0 < B.

Lemma be_val_acc l : forall acc,
  fold_left (fun acc d => acc * B + d) l acc =
  acc * B ^ Z.of_nat (length l) + be_val B l.
Proof.
  unfold be_val.
  induction l as [|d l IH]; intros acc; simpl fold_left.
  - simpl. lia.
  - rewrite IH. rewrite (IH (0 * B + d)).
    rewrite length_cons, Nat2Z.inj_succ, Z.pow_succ_r by lia. lia.
Qed.

Lemma be_val_cons d l :
  be_val B (d :: l) = d * B ^ Z.of_nat (length l) + be_val B l.
Proof.
  unfold be_val at 1. simpl fold_left. rewrite be_val_acc. lia.
Qed.

Lemma be_val_range l :
  Forall (is_digit B) l -> 0 <= be_val B l < B ^ Z.of_nat (length l).
Proof.
  induction 1 as [|d l Hd _ IH].
  - unfold be_val. simpl. lia.
  - rewrite be_val_cons, length_cons, Nat2Z.inj_succ, Z.pow_succ_r by lia.
    unfold is_digit in Hd. nia.
Qed.

(** On digit sequences of one length, the lexicographic order is the
    order of the numbers they denote. *)
Lemma lex_leb_be_val l1 : forall l2,
  length l1 = length l2 ->
  Forall (is_digit B) l1 -> Forall (is_digit B) l2 ->
  lex_leb l1 l2 = (be_val B l1 <=? be_val B l2).
Proof.
  induction l1 as [|a l1 IH]; intros [|b l2] Hlen H1 H2;
    try discriminate Hlen.
  - reflexivity.
  - apply Forall_cons_1 in H1 as [Ha H1]. apply Forall_cons_1 in H2 as [Hb H2].
    injection Hlen as Hlen.
    rewrite !be_val_cons, <- Hlen.
    pose proof (be_val_range l1 H1) as R1.
    pose proof (be_val_range l2 H2) as R2. rewrite <- Hlen in R2.
    simpl lex_leb. unfold is_digit in *.
    destruct (Z.ltb_spec a b) as [Hab|Hab].
    + symmetry. apply Z.leb_le. nia.
    + destruct (Z.ltb_spec b a) as [Hba|Hba].
      * symmetry. apply Z.leb_gt. nia.
      * assert (a = b) by lia. subst b.
        rewrite (IH l2 Hlen H1 H2).
        destruct (Z.leb_spec (be_val B l1) (be_val B l2));
          symmetry; [apply Z.leb_le | apply Z.leb_gt]; lia.
Qed.
End Positional.

(** A strictly increasing relabelling of the elements keeps the order. *)
Lemma lex_leb_map (f : Z -> Z) (P : Z -> Prop) :
  (forall a b, P a -> P b -> a < b -> f a < f b) ->
  forall l1 l2, Forall P l1 -> Forall P l2 ->
  lex_leb (map f l1) (map f l2) = lex_leb l1 l2.
Proof.
  intros Hf. induction l1 as [|a l1 IH]; intros [|b l2] H1 H2; try reflexivity.
  apply Forall_cons_1 in H1 as [Ha H1]. apply Forall_cons_1 in H2 as [Hb H2].
  simpl. rewrite (IH l2 H1 H2).
  destruct (Z.ltb_spec a b) as [Hab|Hab].
  - pose proof (Hf a b Ha Hb Hab). destruct (Z.ltb_spec (f a) (f b)); [reflexivity|lia].
  - destruct (Z.ltb_spec b a) as [Hba|Hba].
    + pose proof (Hf b a Hb Ha Hba).
      destruct (Z.ltb_spec (f a) (f b)); [lia|].
      destruct (Z.ltb_spec (f b) (f a)); [reflexivity|lia].
    + assert (a = b) by lia. subst b. rewrite !Z.ltb_irrefl. reflexivity.
Qed.

(** The alphabet is listed in ascending character order. *)
Lemma enc_char_mono a b : is_sym a -> is_sym b -> a < b -> enc_char a < enc_char b.
Proof.
  intros Ha Hb Hab.
  assert (H : implb (a <? b) (enc_char a <? enc_char b) = true).
  { exact (all_below2_sound 32 32
             (fun a b => implb (a <? b) (enc_char a <? enc_char b))
             ltac:(vm_compute; reflexivity) a b Ha Hb). }
  apply Z.ltb_lt in Hab. rewrite Hab in H. simpl in H. apply Z.ltb_lt, H.
Qed.

(** The twenty symbols, read in base 32, are the 96-bit number followed by
    four zero bits. *)
Lemma be_val_symbols id :
  wf_ID id -> be_val 32 (symbols id) = 16 * be_val 256 id.
Proof.
  intros [Hlen Hb].
  do 12 (destruct id as [|? id]; [discriminate Hlen|]).
  destruct id; [|discriminate Hlen].
  split_bytes Hb.
  unfold symbols, be_val, fold_left, is_byte in *.
  Z.div_mod_to_equations. lia.
Qed.

(** C7. The encoding preserves order: for identifiers [x] and [y], [x]
    precedes or equals [y] in byte-lexicographic order exactly when the text
    of [x] precedes or equals the text of [y] in lexicographic order. *)
Theorem encode_order_preserving (x y : ID) (dst : list Z) :
  wf_ID x -> wf_ID y -> length dst = encodedLen ->
  exists tx ty,
    encode dst x = Done tx /\ encode dst y = Done ty /\
    (lex_leb x y = true <-> lex_leb tx ty = true).
Proof.
  intros Hx Hy Hd.
  exists (map enc_char (symbols x)), (map enc_char (symbols y)).
  split; [apply encode_wf; assumption|].
  split; [apply encode_wf; assumption|].
  rewrite (lex_leb_map enc_char is_sym enc_char_mono)
    by (apply symbols_sym; assumption).
  rewrite (lex_leb_be_val 32 ltac:(lia) (symbols x) (symbols y)).
  - rewrite !be_val_symbols by assumption.
    destruct Hx as [Lx Bx], Hy as [Ly By].
    rewrite (lex_leb_be_val 256 ltac:(lia) x y);
      [| congruence | exact Bx | exact By].
    rewrite !Z.leb_le. lia.
  - rewrite !symbols_length by assumption. reflexivity.
  - exact (symbols_sym x Hx).
  - exact (symbols_sym y Hy).
Qed.

Lemma encode_order_preserving_witness :
  exists tx ty,
    encode (make encodedLen) (replicate 12 0) = Done tx /\
    encode (make encodedLen)
      [0x4d; 0x88; 0xe1; 0x5b; 0x60; 0xf4; 0x86; 0xe4; 0x28; 0x41; 0x2d; 0xc9]
    = Done ty /\
    (lex_leb (replicate 12 0)
       [0x4d; 0x88; 0xe1; 0x5b; 0x60; 0xf4; 0x86; 0xe4; 0x28; 0x41; 0x2d; 0xc9]
     = true <-> lex_leb tx ty = true).
Proof.
  apply encode_order_preserving;
    [split; [reflexivity|] | split; [reflexivity|] | reflexivity];
    repeat (apply Forall_cons_2; [unfold is_byte; lia|]); apply Forall_nil_2.
Defined.

(** ** Validation in [UnmarshalText] *)

Lemma in_alphabetb_spec c : in_alphabetb c = true <-> in_alphabet c.
Proof.
  unfold in_alphabetb, in_alphabet. rewrite existsb_exists. split.
  - intros [x [Hin Heq]]. apply Z.eqb_eq in Heq. subst x. exact Hin.
  - intros Hin. exists c. split; [exact Hin | apply Z.eqb_refl].
Qed.

(** The sentinel marks exactly the bytes outside the alphabet. *)
Lemma dec_sentinel c :
  is_byte c -> (dec_at c =? 0xFF) = negb (in_alphabetb c).
Proof.
  intros Hc.
  assert (H : Bool.eqb (dec_at c =? 0xFF) (negb (in_alphabetb c)) = true).
  { exact (all_below_sound 256
             (fun c => Bool.eqb (dec_at c =? 0xFF) (negb (in_alphabetb c)))
             ltac:(vm_compute; reflexivity) c Hc). }
  apply Bool.eqb_prop, H.
Qed.

Lemma in_alphabet_byte c : in_alphabet c -> is_byte c.
Proof.
  unfold in_alphabet. intros Hin.
  assert (H : forallb (fun c => (0 <=? c) && (c <? 256)) encoding = true)
    by (vm_compute; reflexivity).
  rewrite forallb_forall in H. specialize (H c Hin).
  apply andb_true_iff in H. unfold is_byte. lia.
Qed.

Lemma in_alphabet_sym c : in_alphabet c -> is_sym (dec_at c).
Proof.
  intros Hin. pose proof (in_alphabet_byte c Hin) as Hc.
  apply in_alphabetb_spec in Hin.
  assert (H : implb (in_alphabetb c) ((0 <=? dec_at c) && (dec_at c <? 32)) = true).
  { exact (all_below_sound 256
             (fun c => implb (in_alphabetb c) ((0 <=? dec_at c) && (dec_at c <? 32)))
             ltac:(vm_compute; reflexivity) c Hc). }
  rewrite Hin in H. simpl in H. apply andb_true_iff in H.
  unfold is_sym. lia.
Qed.

Lemma range_invalid_spec text :
  is_bytes text ->
  range_invalid text = true <-> Exists (fun c => ~ in_alphabet c) text.
Proof.
  induction 1 as [|c text Hc _ IH]; simpl.
  - split; [discriminate | intros H; inversion H].
  - rewrite (dec_sentinel c Hc), Exists_cons, <- IH.
    destruct (in_alphabetb c) eqn:E; simpl.
    + apply in_alphabetb_spec in E. tauto.
    + split; [|reflexivity]. intros _. left. intros Hin.
      apply in_alphabetb_spec in Hin. congruence.
Qed.

Lemma range_invalid_false text :
  Forall in_alphabet text -> range_invalid text = false.
Proof.
  induction 1 as [|c text Hc _ IH]; simpl; [reflexivity|].
  rewrite (dec_sentinel c (in_alphabet_byte c Hc)).
  apply in_alphabetb_spec in Hc. rewrite Hc. simpl. exact IH.
Qed.

Lemma UnmarshalText_valid id text :
  length id = rawLen -> length text = encodedLen -> Forall in_alphabet text ->
  UnmarshalText id text = Done (octets (map dec_at text), None).
Proof.
  intros Hid Hlen Hal. unfold UnmarshalText.
  rewrite Hlen, Nat.eqb_refl. simpl negb. cbv iota.
  rewrite (range_invalid_false text Hal).
  rewrite decode_chars; [reflexivity | exact Hid | exact Hlen |].
  eapply Forall_impl; [exact Hal|]. exact in_alphabet_sym.
Qed.

Lemma UnmarshalText_cases id text :
  length id = rawLen -> is_bytes text ->
  (length text = encodedLen /\ Forall in_alphabet text /\
   UnmarshalText id text = Done (octets (map dec_at text), None)) \/
  ((length text <> encodedLen \/ Exists (fun c => ~ in_alphabet c) text) /\
   UnmarshalText id text = Done (id, Some ErrInvalidID)).
Proof.
  intros Hid Hb.
  destruct (Nat.eqb_spec (length text) encodedLen) as [Hlen|Hlen].
  - destruct (range_invalid text) eqn:E.
    + right. split; [right; apply range_invalid_spec; assumption|].
      unfold UnmarshalText. rewrite Hlen, Nat.eqb_refl, E. reflexivity.
    + left. assert (Hal : Forall in_alphabet text).
      { apply Forall_forall. intros c Hc.
        destruct (in_alphabetb c) eqn:Ec; [apply in_alphabetb_spec, Ec|].
        exfalso. assert (range_invalid text = true); [|congruence].
        apply range_invalid_spec; [exact Hb|].
        apply Exists_exists. exists c. split; [exact Hc|].
        intros Hin. apply in_alphabetb_spec in Hin. congruence. }
      split; [exact Hlen|]. split; [exact Hal|].
      apply UnmarshalText_valid; assumption.
  - right. split; [left; exact Hlen|].
    unfold UnmarshalText. apply Nat.eqb_neq in Hlen. rewrite Hlen. reflexivity.
Qed.

Lemma valid_not_invalid text :
  length text = encodedLen -> Forall in_alphabet text ->
  ~ (length text <> encodedLen \/ Exists (fun c => ~ in_alphabet c) text).
Proof.
  intros Hlen Hal [Hne|Hex]; [contradiction|].
  apply Exists_exists in Hex as [c [Hc Hn]].
  rewrite Forall_forall in Hal. exact (Hn (Hal c Hc)).
Qed.

(** C6. [UnmarshalText] returns the invalid-ID error exactly when the input
    is not 20 bytes long or holds a byte outside the alphabet, and whenever
    it returns that error the receiver is left as it was. *)
Theorem UnmarshalText_error_iff (id : ID) (text : list Z) :
  length id = rawLen -> is_bytes text ->
  exists id' err,
    UnmarshalText id text = Done (id', err) /\
    (err = Some ErrInvalidID <->
     length text <> encodedLen \/ Exists (fun c => ~ in_alphabet c) text) /\
    (err = Some ErrInvalidID -> id' = id).
Proof.
  intros Hid Hb.
  destruct (UnmarshalText_cases id text Hid Hb) as [(Hlen & Hal & HU)|(Hbad & HU)].
  - exists (octets (map dec_at text)), None. split; [exact HU|].
    split; [|discriminate]. split; [discriminate|].
    intros H. exfalso. exact (valid_not_invalid text Hlen Hal H).
  - exists id, (Some ErrInvalidID). split; [exact HU|].
    split; [|reflexivity]. split; [|reflexivity]. intros _. exact Hbad.
Qed.

Lemma UnmarshalText_error_iff_witness :
  exists id' err,
    UnmarshalText (replicate 12 1) (bytes_of_string "123") = Done (id', err) /\
    (err = Some ErrInvalidID <->
     length (bytes_of_string "123") <> encodedLen \/
     Exists (fun c => ~ in_alphabet c) (bytes_of_string "123")) /\
    (err = Some ErrInvalidID -> id' = replicate 12 1).
Proof.
  apply UnmarshalText_error_iff; [reflexivity|].
  change (bytes_of_string "123") with [49; 50; 51].
  repeat (apply Forall_cons_2; [unfold is_byte; lia|]). apply Forall_nil_2.
Defined.

(** ** Padding bits *)

(** The low four bits of the last symbol never reach the identifier. *)
Lemma decode_padding id text c c' :
  length id = rawLen -> length text = 19%nat -> Forall in_alphabet text ->
  in_alphabet c -> in_alphabet c' -> dec_at c / 16 = dec_at c' / 16 ->
  UnmarshalText id (text ++ [c]) = UnmarshalText id (text ++ [c']).
Proof.
  intros Hid Hlen Hal Hc Hc' E.
  rewrite !UnmarshalText_valid;
    try first [ exact Hid
              | rewrite length_app, Hlen; reflexivity
              | apply Forall_app_2;
                [exact Hal | apply Forall_cons_2; [assumption | apply Forall_nil_2]] ].
  do 19 (destruct text as [|? text]; [discriminate Hlen|]).
  destruct text; [|discriminate Hlen].
  cbn [app map octets]. rewrite E. reflexivity.
Qed.

(** C10. [UnmarshalText] accepts every 20-character input over the
    alphabet; the four low-order bits of the last character are dropped by
    [decode]; and some accepted string, one whose last character carries a
    nonzero padding bit, is not what [encode] gives back for its identifier. *)
Theorem UnmarshalText_accepts_noncanonical :
  (forall id text,
      length id = rawLen -> length text = encodedLen -> Forall in_alphabet text ->
      exists id', UnmarshalText id text = Done (id', None)) /\
  (forall id text c c',
      length id = rawLen -> length text = 19%nat -> Forall in_alphabet text ->
      in_alphabet c -> in_alphabet c' -> dec_at c / 16 = dec_at c' / 16 ->
      UnmarshalText id (text ++ [c]) = UnmarshalText id (text ++ [c'])) /\
  (exists s id' s',
      length s = encodedLen /\ Forall in_alphabet s /\
      UnmarshalText (replicate rawLen 0) s = Done (id', None) /\
      String id' = Done s' /\ s' <> s).
Proof.
  split; [|split].
  - intros id text Hid Hlen Hal. eexists. apply UnmarshalText_valid; assumption.
  - exact decode_padding.
  - exists (bytes_of_string "00000000000000000001"), (replicate 12 0),
      (bytes_of_string "00000000000000000000").
    split; [reflexivity|].
    split.
    { apply Forall_forall. intros c Hc. apply in_alphabetb_spec.
      assert (H : forallb in_alphabetb (bytes_of_string "00000000000000000001") = true)
        by (vm_compute; reflexivity).
      rewrite forallb_forall in H. apply H. apply list_elem_of_In. exact Hc. }
    split; [vm_compute; reflexivity|].
    split; [vm_compute; reflexivity|].
    vm_compute. discriminate.
Qed.

Lemma UnmarshalText_accepts_noncanonical_witness :
  exists id',
    UnmarshalText (replicate 12 0) (replicate 20 118) = Done (id', None).
Proof.
  apply (proj1 UnmarshalText_accepts_noncanonical); [reflexivity | reflexivity |].
  repeat (apply Forall_cons_2; [unfold in_alphabet; simpl; tauto|]). apply Forall_nil_2.
Defined.

(** ** The SQL adapter *)

(** C8 (amended). [Scan] succeeds exactly on a string holding the valid
    20-character text form or a byte slice of length 12. A byte slice of any
    other length is rejected with an error that reports its length, a value
    of any other type with an error that reports its type, and a string that
    is not a valid text form with the invalid-ID error. [Value] always
    returns the raw 12-byte form and no error. *)
Theorem Scan_Value_spec (id : ID) (v : value) :
  length id = rawLen ->
  (forall s, v = VString s -> is_bytes s) ->
  exists id' err,
    Scan id v = Done (id', err) /\
    (err = None <->
     (exists s, v = VString s /\ length s = encodedLen /\ Forall in_alphabet s) \/
     (exists b, v = VBytes b /\ length b = 12%nat)) /\
    (forall b, v = VBytes b -> length b = 12%nat -> id' = b) /\
    (forall b, v = VBytes b -> length b <> 12%nat ->
               err = Some (ErrScanLength (length b))) /\
    (forall T, v = VOther T -> err = Some (ErrScanType T)) /\
    (forall s, v = VString s -> err <> None -> err = Some ErrInvalidID) /\
    Value id = (VBytes id, None).
Proof.
  intros Hid Hs. destruct v as [s|b|T]; simpl Scan.
  - specialize (Hs s eq_refl).
    destruct (UnmarshalText_cases id s Hid Hs) as [(Hlen & Hal & HU)|(Hbad & HU)].
    + exists (octets (map dec_at s)), None. split; [exact HU|].
      split.
      { split; [|reflexivity]. intros _. left. exists s. auto. }
      repeat split; try discriminate. intros s' _ Hn. contradiction.
    + exists id, (Some ErrInvalidID). split; [exact HU|].
      split.
      { split; [discriminate|].
        intros [(s' & [= <-] & Hlen & Hal)|(b & [=] & _)].
        exfalso. exact (valid_not_invalid s Hlen Hal Hbad). }
      repeat split; try discriminate.
  - destruct (Nat.eqb_spec (length b) 12) as [Hlen|Hlen]; simpl negb; cbv iota.
    + exists (copy id b), None. split; [reflexivity|].
      split.
      { split; [|reflexivity]. intros _. right. exists b. split; [reflexivity|exact Hlen]. }
      repeat split; try discriminate.
      * intros b' [= <-] _. unfold copy. rewrite Hid, Hlen. simpl Nat.min.
        rewrite <- Hlen at 1. rewrite firstn_all.
        rewrite drop_ge by (rewrite Hid; unfold rawLen; lia). apply app_nil_r.
      * intros b' [= <-] Hne. contradiction.
    + exists id, (Some (ErrScanLength (length b))). split; [reflexivity|].
      split.
      { split; [discriminate|].
        intros [(s' & [=] & _)|(b' & [= <-] & Hl)]. contradiction. }
      repeat split; try discriminate.
      * intros b' [= <-] Hl. contradiction.
      * intros b' [= <-] _. reflexivity.
  - exists id, (Some (ErrScanType T)). split; [reflexivity|].
    split.
    { split; [discriminate|]. intros [(s' & [=] & _)|(b' & [=] & _)]. }
    repeat split; try discriminate.
    intros T' [= <-]. reflexivity.
Qed.

Lemma Scan_Value_spec_witness :
  exists id' err,
    Scan (replicate 12 0) (VBytes (replicate 5 9)) = Done (id', err) /\
    err = Some (ErrScanLength 5).
Proof.
  destruct (Scan_Value_spec (replicate 12 0) (VBytes (replicate 5 9)) eq_refl)
    as (id' & err & HS & _ & _ & Hlen & _).
  - intros s Hs. discriminate Hs.
  - exists id', err. split; [exact HS|].
    apply (Hlen (replicate 5 9) eq_refl). discriminate.
Defined.

(** C8, as stated, fails on a string of the wrong length: the three
    characters 123 are rejected with the invalid-ID error, which reports
    neither a length nor a type. *)
Lemma Scan_short_string_error :
  exists id' e,
    Scan (replicate 12 0) (VString (bytes_of_string "123")) = Done (id', Some e) /\
    (forall n, e <> ErrScanLength n) /\ (forall T, e <> ErrScanType T).
Proof.
  exists (replicate 12 0), ErrInvalidID.
  split; [vm_compute; reflexivity|]. split; discriminate.
Qed.

(** ** Big-endian timestamps *)

Lemma lor_shiftl_add a b k :
  0 <= k -> 0 <= a < 2 ^ k -> Z.lor a (b * 2 ^ k) = a + b * 2 ^ k.
Proof.
  intros Hk Ha.
  rewrite <- (Z.add_lor_land a (b * 2 ^ k)).
  assert (E : Z.land a (b * 2 ^ k) = 0).
  { apply Z.bits_inj'. intros n Hn.
    rewrite Z.land_spec, Z.bits_0.
    destruct (Z.lt_ge_cases n k) as [Hlt|Hge].
    - rewrite Z.mul_pow2_bits_low by exact Hlt. apply andb_false_r.
    - rewrite <- (Z.mod_small a (2 ^ k)) by exact Ha.
      rewrite Z.mod_pow2_bits_high by lia. reflexivity. }
  rewrite E. lia.
Qed.

Lemma or_shl64 a b k :
  0 <= k -> 0 <= a < 2 ^ k -> 0 <= b -> b * 2 ^ k < 2 ^ 64 ->
  a .| Go.shl64 b k = a + b * 2 ^ k.
Proof.
  intros Hk Ha Hb Hlt. unfold Go.or, Go.shl64, Go.uint64.
  rewrite (Z.shiftl_mul_pow2 b k) by exact Hk.
  rewrite Z.mod_small by (split; [nia | exact Hlt]).
  apply lor_shiftl_add; assumption.
Qed.

Lemma Uint64_bytes b0 b1 b2 b3 b4 b5 b6 b7 :
  is_bytes [b0; b1; b2; b3; b4; b5; b6; b7] ->
  Uint64 [b0; b1; b2; b3; b4; b5; b6; b7] =
  Done (be_val 256 [b0; b1; b2; b3; b4; b5; b6; b7]).
Proof.
  intros Hb. split_bytes Hb. unfold is_byte in *.
  unfold Uint64. cbn [index lookup list_lookup rbind nth].
  f_equal.
  rewrite (or_shl64 b7 b6 8) by lia.
  rewrite (or_shl64 _ b5 16) by lia.
  rewrite (or_shl64 _ b4 24) by lia.
  rewrite (or_shl64 _ b3 32) by lia.
  rewrite (or_shl64 _ b2 40) by lia.
  rewrite (or_shl64 _ b1 48) by lia.
  rewrite (or_shl64 _ b0 56) by lia.
  unfold be_val, fold_left. lia.
Qed.

Lemma Time_bytes id :
  length id = rawLen -> is_bytes (take 6 id) ->
  Time id = Done (Go.int64 (be_val 256 (take 6 id) * 2 ^ 16)).
Proof.
  intros Hlen Hb.
  do 12 (destruct id as [|? id]; [discriminate Hlen|]).
  destruct id; [|discriminate Hlen].
  cbn [take] in Hb. split_bytes Hb.
  unfold Time.
  change (write_slice (make 8) 0 6
            (copy (slice (make 8) 0 6)
                  (slice [z; z0; z1; z2; z3; z4; z5; z6; z7; z8; z9; z10] 0 6)))
    with [z; z0; z1; z2; z3; z4; 0; 0].
  rewrite Uint64_bytes.
  - cbn [rbind]. do 2 f_equal. unfold be_val. cbn [take fold_left]. lia.
  - repeat (apply Forall_cons_2; [first [assumption | unfold is_byte; lia]|]).
    apply Forall_nil_2.
Qed.

Lemma byte_is_byte x : is_byte (Go.byte x).
Proof. unfold is_byte, Go.byte. apply Z.mod_pos_bound. lia. Qed.

Lemma uint64_range t : 0 <= Go.uint64 t < 2 ^ 64.
Proof. unfold Go.uint64. apply Z.mod_pos_bound. lia. Qed.

Lemma PutUint64_bytes (b : list Z) v :
  (8 <= length b)%nat ->
  PutUint64 b v =
  Done ([Go.byte (v >>> 56); Go.byte (v >>> 48); Go.byte (v >>> 40);
         Go.byte (v >>> 32); Go.byte (v >>> 24); Go.byte (v >>> 16);
         Go.byte (v >>> 8); Go.byte v] ++ drop 8 b).
Proof.
  intros Hlen.
  do 8 (destruct b as [|? b]; [simpl in Hlen; lia|]).
  reflexivity.
Qed.

Lemma high48 v :
  0 <= v < 2 ^ 64 ->
  be_val 256 [Go.byte (v >>> 56); Go.byte (v >>> 48); Go.byte (v >>> 40);
              Go.byte (v >>> 32); Go.byte (v >>> 24); Go.byte (v >>> 16)]
  = v / 2 ^ 16.
Proof.
  intros Hv. unfold be_val, fold_left, Go.byte, Go.shr.
  rewrite !Z.shiftr_div_pow2 by lia.
  Z.div_mod_to_equations. lia.
Qed.

Lemma NewFromTime_ok t w :
  (6 <= length (entropy w))%nat ->
  NewFromTime t w =
  Done ([Go.byte (Go.uint64 t >>> 56); Go.byte (Go.uint64 t >>> 48);
         Go.byte (Go.uint64 t >>> 40); Go.byte (Go.uint64 t >>> 32);
         Go.byte (Go.uint64 t >>> 24); Go.byte (Go.uint64 t >>> 16)]
          ++ take 6 (entropy w),
        mkWorld (atomicCount w) (drop 6 (entropy w))).
Proof.
  intros He. unfold NewFromTime, mbind, lift.
  rewrite PutUint64_bytes by (simpl; lia).
  unfold rand_Read.
  change (length (slice _ 6 12)) with 6%nat.
  apply Nat.leb_le in He. rewrite He.
  unfold ret, write_slice.
  change (drop 12 _) with (@nil Z). rewrite app_nil_r. reflexivity.
Qed.

Lemma int64_high48 t :
  - 2 ^ 63 <= t < 2 ^ 63 ->
  Go.int64 (Go.uint64 t / 2 ^ 16 * 2 ^ 16) = t - t mod 2 ^ 16.
Proof.
  intros Ht. unfold Go.int64, Go.uint64.
  Z.div_mod_to_equations. lia.
Qed.

(** ** The generator *)

(** C4 (amended). With six bytes of entropy available, [NewFromTime t]
    returns a 12-byte identifier whose bytes [0..6) are the high-order 48
    bits of the 64-bit nanosecond value of [t] (that value divided by 2^16),
    as a big-endian integer, and whose bytes [6..12) are the random bytes. *)
Theorem NewFromTime_layout (t : Z) (w : World) :
  (6 <= length (entropy w))%nat ->
  exists id,
    NewFromTime t w = Done (id, mkWorld (atomicCount w) (drop 6 (entropy w))) /\
    length id = rawLen /\
    is_bytes (take 6 id) /\
    be_val 256 (take 6 id) = Go.uint64 t / 2 ^ 16 /\
    drop 6 id = take 6 (entropy w).
Proof.
  intros He. eexists. split; [apply NewFromTime_ok, He|].
  split.
  { rewrite length_app, length_take. cbn [length]. unfold rawLen.
    rewrite Nat.min_l by exact He. reflexivity. }
  cbn [take drop app].
  split.
  { repeat (apply Forall_cons_2; [apply byte_is_byte|]). apply Forall_nil_2. }
  split; [apply high48, uint64_range | reflexivity].
Qed.

Lemma NewFromTime_layout_witness :
  exists id,
    NewFromTime 1700000000000000000 (mkWorld 0 [1; 2; 3; 4; 5; 6])
    = Done (id, mkWorld 0 (drop 6 [1; 2; 3; 4; 5; 6])) /\
    length id = rawLen /\
    is_bytes (take 6 id) /\
    be_val 256 (take 6 id) = Go.uint64 1700000000000000000 / 2 ^ 16 /\
    drop 6 id = take 6 [1; 2; 3; 4; 5; 6].
Proof.
  apply (NewFromTime_layout 1700000000000000000 (mkWorld 0 [1; 2; 3; 4; 5; 6])).
  simpl. lia.
Defined.

(** C4, as stated, fails at one nanosecond after the epoch: the low-order
    48 bits of the timestamp are 1, bytes [0..6) hold 0. *)
Lemma NewFromTime_low48_fails :
  exists id w',
    NewFromTime 1 (mkWorld 0 [0; 0; 0; 0; 0; 0]) = Done (id, w') /\
    take 6 id = [0; 0; 0; 0; 0; 0] /\
    be_val 256 (take 6 id) <> Go.uint64 1 mod 2 ^ 48.
Proof.
  eexists. eexists. split; [vm_compute; reflexivity|].
  split; [reflexivity|]. vm_compute. discriminate.
Qed.

(** C5 (amended). For an identifier generated from timestamp [t], [Time]
    reads bytes [0..6) as the six high-order bytes of a 64-bit big-endian
    value whose two low-order bytes are zero, and returns [t] with only its
    high 48 bits preserved: the low 16 bits of the result are zero. *)
Theorem Time_NewFromTime (t : Z) (w : World) :
  - 2 ^ 63 <= t < 2 ^ 63 ->
  (6 <= length (entropy w))%nat ->
  exists id w' T',
    NewFromTime t w = Done (id, w') /\
    Time id = Done T' /\
    T' = Go.int64 (be_val 256 (take 6 id) * 2 ^ 16) /\
    T' = t - t mod 2 ^ 16 /\
    T' mod 2 ^ 16 = 0 /\ T' / 2 ^ 16 = t / 2 ^ 16.
Proof.
  intros Ht He.
  eexists. eexists. eexists.
  split; [apply NewFromTime_ok, He|].
  assert (Hb : is_bytes
                 [Go.byte (Go.uint64 t >>> 56); Go.byte (Go.uint64 t >>> 48);
                  Go.byte (Go.uint64 t >>> 40); Go.byte (Go.uint64 t >>> 32);
                  Go.byte (Go.uint64 t >>> 24); Go.byte (Go.uint64 t >>> 16)]).
  { repeat (apply Forall_cons_2; [apply byte_is_byte|]). apply Forall_nil_2. }
  split.
  { apply Time_bytes; [|exact Hb].
    rewrite length_app, length_take, Nat.min_l by exact He. reflexivity. }
  rewrite take_app_length' by reflexivity.
  split; [reflexivity|].
  rewrite (high48 _ (uint64_range t)), (int64_high48 t Ht).
  split; [reflexivity|].
  Z.div_mod_to_equations. lia.
Qed.

Lemma Time_NewFromTime_witness :
  exists id w' T',
    NewFromTime 1700000000000000000 (mkWorld 0 [1; 2; 3; 4; 5; 6]) = Done (id, w') /\
    Time id = Done T' /\
    T' = Go.int64 (be_val 256 (take 6 id) * 2 ^ 16) /\
    T' = 1700000000000000000 - 1700000000000000000 mod 2 ^ 16 /\
    T' mod 2 ^ 16 = 0 /\ T' / 2 ^ 16 = 1700000000000000000 / 2 ^ 16.
Proof.
  apply (Time_NewFromTime 1700000000000000000 (mkWorld 0 [1; 2; 3; 4; 5; 6])).
  - lia.
  - simpl. lia.
Defined.

(** C5, as stated, fails at one nanosecond after the epoch: the timestamp
    with only its low 48 bits preserved is 1, [Time] returns 0. *)
Lemma Time_low48_fails :
  exists id w' T',
    NewFromTime 1 (mkWorld 0 [0; 0; 0; 0; 0; 0]) = Done (id, w') /\
    Time id = Done T' /\ T' = 0 /\
    T' <> Go.int64 (Go.uint64 1 mod 2 ^ 48).
Proof.
  eexists. eexists. eexists. split; [vm_compute; reflexivity|].
  split; [vm_compute; reflexivity|]. split; [reflexivity|].
  vm_compute. discriminate.
Qed.

(** C3. [randUInt64] allocates a buffer of two bytes and then reads indices
    0 to 3 of it: when the random source fills the buffer, the read at index
    2 panics, so the call never returns a value. *)
Theorem randUInt64_panics (w : World) :
  randUInt64 w =
  if (2 <=? length (entropy w))%nat
  then Panics (IndexOutOfRange 2 2) else Panics RandFailure.
Proof.
  unfold randUInt64, mbind, rand_Read.
  change (length (make 2)) with 2%nat.
  destruct (Nat.leb_spec 2 (length (entropy w))) as [H|H]; [|reflexivity].
  destruct (entropy w) as [|a [|b l]]; simpl in H; try lia.
  reflexivity.
Qed.

(** Whatever the mode, the identifier [NewWithConcurrence] returns is the
    one [NewFromTime] produced: the [Apply...] functions change a copy. *)
Lemma NewWithConcurrence_id (level : Concurrency) (t : Z) (w : World) :
  match NewFromTime t w with
  | Done (id, w') =>
      exists w'', NewWithConcurrence level t w = Done (id, w'') /\
                  entropy w'' = entropy w'
  | Panics p => NewWithConcurrence level t w = Panics p
  end.
Proof.
  unfold NewWithConcurrence, mbind.
  destruct (NewFromTime t w) as [[id w']|p]; [|reflexivity].
  destruct (level =? NANO); [eexists; split; reflexivity|].
  destruct (level =? LOW); [eexists; split; reflexivity|].
  destruct (level =? MEDIUM); [eexists; split; reflexivity|].
  destruct (level =? HIGH); eexists; split; reflexivity.
Qed.

Lemma NewWithConcurrence_LOW (t : Z) (w : World) :
  NewWithConcurrence LOW t w =
  match NewFromTime t w with
  | Done (id, w') =>
      Done (id, mkWorld (Go.uint64 (atomicCount w' + 1)) (entropy w'))
  | Panics p => Panics p
  end.
Proof.
  unfold NewWithConcurrence, mbind.
  destruct (NewFromTime t w) as [[id w']|p]; reflexivity.
Qed.

(** C2. Two identifiers made in LOW mode in immediate succession from one
    timestamp, with the counter at 0 and a random source that delivers the
    byte 7: the counter goes to 1 and then 2, and both identifiers carry the
    random byte 7 at index 6. *)
Theorem LOW_twice_same_byte6 :
  exists a b w1 w2,
    NewWithConcurrence LOW 1 (mkWorld 0 (replicate 12 7)) = Done (a, w1) /\
    NewWithConcurrence LOW 1 w1 = Done (b, w2) /\
    atomicCount w1 = 1 /\ atomicCount w2 = 2 /\
    nth 6 a 0 = 7 /\ nth 6 b 0 = 7.
Proof.
  do 4 eexists.
  split; [vm_compute; reflexivity|].
  split; [vm_compute; reflexivity|].
  repeat split.
Qed.

(** * Further properties of the code *)

(** Discharge [is_bytes] of a literal list. *)
Ltac bytes_ok :=
  repeat (apply Forall_cons_2; [unfold is_byte; lia|]); apply Forall_nil_2.

Lemma in_alphabet_forallb text :
  forallb in_alphabetb text = true -> Forall in_alphabet text.
Proof.
  intros H. apply Forall_forall. intros c Hc. apply in_alphabetb_spec.
  rewrite forallb_forall in H. apply H. apply list_elem_of_In. exact Hc.
Qed.

(** ** More on the tables *)

Lemma enc_dec_char c : in_alphabet c -> enc_char (dec_at c) = c.
Proof.
  intros Hin. pose proof (in_alphabet_byte c Hin) as Hc.
  apply in_alphabetb_spec in Hin.
  assert (H : implb (in_alphabetb c) (enc_char (dec_at c) =? c) = true).
  { exact (all_below_sound 256
             (fun c => implb (in_alphabetb c) (enc_char (dec_at c) =? c))
             ltac:(vm_compute; reflexivity) c Hc). }
  rewrite Hin in H. simpl in H. apply Z.eqb_eq, H.
Qed.

Lemma enc_char_in_alphabet s : is_sym s -> in_alphabet (enc_char s).
Proof.
  intros Hs. apply in_alphabetb_spec.
  exact (all_below_sound 32 (fun s => in_alphabetb (enc_char s))
           ltac:(vm_compute; reflexivity) s Hs).
Qed.

(** X1. The table that [init] builds inverts the alphabet: it has 256
    entries, a byte of the alphabet is mapped to its position in [encoding],
    a 5-bit value that [encoding] maps back to the byte, and every other byte
    is mapped to the sentinel [0xFF]. *)
Theorem dec_table_inverse (c : Z) :
  is_byte c ->
  length dec = 256%nat /\
  ((in_alphabet c /\ is_sym (dec_at c) /\ nth (Z.to_nat (dec_at c)) encoding 0 = c) \/
   (~ in_alphabet c /\ dec_at c = 0xFF)).
Proof.
  intros Hc. split; [reflexivity|].
  destruct (in_alphabetb c) eqn:E.
  - left. apply in_alphabetb_spec in E.
    split; [exact E|]. split; [apply in_alphabet_sym, E|].
    exact (enc_dec_char c E).
  - right. split.
    + intros Hin. apply in_alphabetb_spec in Hin. congruence.
    + pose proof (dec_sentinel c Hc) as H. rewrite E in H. simpl in H.
      apply Z.eqb_eq, H.
Qed.

Lemma dec_table_inverse_witness :
  length dec = 256%nat /\
  ((in_alphabet 97 /\ is_sym (dec_at 97) /\ nth (Z.to_nat (dec_at 97)) encoding 0 = 97) \/
   (~ in_alphabet 97 /\ dec_at 97 = 0xFF)).
Proof. apply (dec_table_inverse 97). unfold is_byte. lia. Defined.

(** ** Well-formed text *)

Lemma octets_bytes syms :
  length syms = 20%nat -> Forall is_sym syms -> wf_ID (octets syms).
Proof.
  intros Hlen Hs.
  do 20 (destruct syms as [|? syms]; [discriminate Hlen|]).
  destruct syms; [|discriminate Hlen].
  repeat (apply Forall_cons_1 in Hs; destruct Hs as [? Hs]).
  split; [reflexivity|]. unfold octets.
  repeat (apply Forall_cons_2; [sym_bound|]). apply Forall_nil_2.
Qed.

Lemma symbols_octets syms :
  length syms = 20%nat -> Forall is_sym syms -> nth 19 syms 0 mod 16 = 0 ->
  symbols (octets syms) = syms.
Proof.
  intros Hlen Hs Hpad.
  do 20 (destruct syms as [|? syms]; [discriminate Hlen|]).
  destruct syms; [|discriminate Hlen].
  repeat (apply Forall_cons_1 in Hs; destruct Hs as [? Hs]).
  cbn [nth] in Hpad.
  unfold symbols, octets, is_sym in *.
  repeat f_equal; Z.div_mod_to_equations; lia.
Qed.

Lemma symbols_pad id : wf_ID id -> nth 19 (symbols id) 0 mod 16 = 0.
Proof.
  intros [Hlen Hb].
  do 12 (destruct id as [|? id]; [discriminate Hlen|]).
  destruct id; [|discriminate Hlen].
  split_bytes Hb. unfold symbols, is_byte in *. cbn [nth].
  Z.div_mod_to_equations. lia.
Qed.

Lemma String_wf id : wf_ID id -> String id = Done (map enc_char (symbols id)).
Proof. intros H. unfold String. apply encode_wf; [reflexivity | exact H]. Qed.

Lemma map_enc_dec text :
  Forall in_alphabet text -> map enc_char (map dec_at text) = text.
Proof.
  induction 1 as [|c l Hc _ IH]; simpl; [reflexivity|].
  rewrite enc_dec_char by exact Hc. f_equal. exact IH.
Qed.

Lemma text_alphabet syms :
  Forall is_sym syms -> Forall in_alphabet (map enc_char syms).
Proof.
  induction 1 as [|s l Hs _ IH]; simpl; constructor;
    [apply enc_char_in_alphabet, Hs | exact IH].
Qed.

Lemma nth_map_enc_char syms :
  Forall is_sym syms -> (19 < length syms)%nat ->
  dec_at (nth 19 (map enc_char syms) 0) = nth 19 syms 0.
Proof.
  intros Hs Hlen.
  rewrite <- (map_dec_enc syms Hs) at 2.
  rewrite <- !(map_nth dec_at).
  rewrite (nth_indep _ (dec_at 0) (dec_at (enc_char 0)));
    [reflexivity | rewrite !length_map; exact Hlen].
Qed.

(** X2. [String] and [MarshalText] never panic on an identifier: both
    return the same 20 characters, all of the alphabet, and the four padding
    bits of the last character are zero. *)
Theorem String_well_formed (id : ID) :
  wf_ID id ->
  exists text,
    String id = Done text /\ MarshalText id = Done text /\
    length text = encodedLen /\ Forall in_alphabet text /\
    dec_at (nth 19 text 0) mod 16 = 0.
Proof.
  intros Hid. exists (map enc_char (symbols id)).
  split; [apply String_wf, Hid|].
  split; [apply String_wf, Hid|].
  split; [rewrite length_map; apply symbols_length, Hid|].
  split; [apply text_alphabet, symbols_sym, Hid|].
  rewrite nth_map_enc_char;
    [apply symbols_pad, Hid | apply symbols_sym, Hid
     | rewrite symbols_length by exact Hid; lia].
Qed.

Lemma String_well_formed_witness :
  exists text,
    String [0x4d; 0x88; 0xe1; 0x5b; 0x60; 0xf4; 0x86; 0xe4; 0x28; 0x41; 0x2d; 0xc9] = Done text /\
    MarshalText [0x4d; 0x88; 0xe1; 0x5b; 0x60; 0xf4; 0x86; 0xe4; 0x28; 0x41; 0x2d; 0xc9] = Done text /\
    length text = encodedLen /\ Forall in_alphabet text /\
    dec_at (nth 19 text 0) mod 16 = 0.
Proof. apply String_well_formed. split; [reflexivity | bytes_ok]. Defined.

Lemma FromString_String id :
  wf_ID id -> FromString (map enc_char (symbols id)) = Done (id, None).
Proof.
  intros Hid. unfold FromString.
  rewrite UnmarshalText_valid.
  - rewrite map_dec_enc by (apply symbols_sym, Hid).
    rewrite octets_symbols by exact Hid. reflexivity.
  - apply length_replicate.
  - rewrite length_map. apply symbols_length, Hid.
  - apply text_alphabet, symbols_sym, Hid.
Qed.

(** X3. Parsing the text of an identifier gives the identifier back with
    no error, through [FromString] and through [UnmarshalText] on any
    receiver. *)
Theorem FromString_String_roundtrip (x id0 : ID) :
  wf_ID x -> length id0 = rawLen ->
  exists text,
    String x = Done text /\ MarshalText x = Done text /\
    FromString text = Done (x, None) /\
    UnmarshalText id0 text = Done (x, None).
Proof.
  intros Hx Hid. exists (map enc_char (symbols x)).
  split; [apply String_wf, Hx|]. split; [apply String_wf, Hx|].
  split; [apply FromString_String, Hx|].
  rewrite UnmarshalText_valid.
  - rewrite map_dec_enc by (apply symbols_sym, Hx).
    rewrite octets_symbols by exact Hx. reflexivity.
  - exact Hid.
  - rewrite length_map. apply symbols_length, Hx.
  - apply text_alphabet, symbols_sym, Hx.
Qed.

Lemma FromString_String_roundtrip_witness :
  exists text,
    String [0x4d; 0x88; 0xe1; 0x5b; 0x60; 0xf4; 0x86; 0xe4; 0x28; 0x41; 0x2d; 0xc9] = Done text /\
    MarshalText [0x4d; 0x88; 0xe1; 0x5b; 0x60; 0xf4; 0x86; 0xe4; 0x28; 0x41; 0x2d; 0xc9] = Done text /\
    FromString text = Done ([0x4d; 0x88; 0xe1; 0x5b; 0x60; 0xf4; 0x86; 0xe4; 0x28; 0x41; 0x2d; 0xc9], None) /\
    UnmarshalText (replicate 12 7) text = Done ([0x4d; 0x88; 0xe1; 0x5b; 0x60; 0xf4; 0x86; 0xe4; 0x28; 0x41; 0x2d; 0xc9], None).
Proof.
  apply FromString_String_roundtrip; [split; [reflexivity | bytes_ok] | reflexivity].
Defined.

(** X4. [String] is injective: two identifiers with the same text are
    equal. *)
Theorem String_injective (x y : ID) :
  wf_ID x -> wf_ID y -> String x = String y -> x = y.
Proof.
  intros Hx Hy E.
  rewrite (String_wf x Hx), (String_wf y Hy) in E. injection E as E.
  pose proof (FromString_String x Hx) as Fx.
  pose proof (FromString_String y Hy) as Fy.
  rewrite E in Fx. rewrite Fx in Fy. injection Fy as Fy. exact Fy.
Qed.

Lemma String_injective_witness : replicate 12 0 = replicate 12 0.
Proof.
  apply (String_injective (replicate 12 0) (replicate 12 0));
    [split; [reflexivity | bytes_ok] | split; [reflexivity | bytes_ok] | reflexivity].
Defined.

(** X5. A 20-character text over the alphabet whose last character has
    zero padding bits is canonical: [UnmarshalText] accepts it and [String]
    of the identifier it yields is that text again. *)
Theorem canonical_text_roundtrip (id0 : ID) (text : list Z) :
  length id0 = rawLen -> length text = encodedLen -> Forall in_alphabet text ->
  dec_at (nth 19 text 0) mod 16 = 0 ->
  exists id,
    UnmarshalText id0 text = Done (id, None) /\ String id = Done text.
Proof.
  intros Hid Hlen Hal Hpad.
  assert (Hs : Forall is_sym (map dec_at text)).
  { apply Forall_map. eapply Forall_impl; [exact Hal | exact in_alphabet_sym]. }
  assert (Hl : length (map dec_at text) = 20%nat) by (rewrite length_map; exact Hlen).
  exists (octets (map dec_at text)).
  split; [apply UnmarshalText_valid; assumption|].
  rewrite String_wf by (apply octets_bytes; assumption).
  rewrite symbols_octets; [rewrite map_enc_dec by exact Hal; reflexivity | exact Hl | exact Hs |].
  rewrite <- (map_nth dec_at) in Hpad.
  rewrite (nth_indep _ 0 (dec_at 0)); [exact Hpad | rewrite Hl; lia].
Qed.

Lemma canonical_text_roundtrip_witness :
  exists id,
    UnmarshalText (replicate 12 0) (bytes_of_string "9m4e2mr0ui3e8a215n4g") = Done (id, None) /\
    String id = Done (bytes_of_string "9m4e2mr0ui3e8a215n4g").
Proof.
  apply canonical_text_roundtrip;
    [reflexivity | reflexivity | apply in_alphabet_forallb; vm_compute; reflexivity
     | vm_compute; reflexivity].
Defined.

(** X6. On success [UnmarshalText] overwrites all twelve bytes: the
    identifier it yields does not depend on what the receiver held before,
    and it is a 12-byte array. *)
Theorem UnmarshalText_overwrites (id1 id2 : ID) (text : list Z) :
  length id1 = rawLen -> length id2 = rawLen ->
  length text = encodedLen -> Forall in_alphabet text ->
  exists id,
    UnmarshalText id1 text = Done (id, None) /\
    UnmarshalText id2 text = Done (id, None) /\ wf_ID id.
Proof.
  intros H1 H2 Hlen Hal. exists (octets (map dec_at text)).
  split; [apply UnmarshalText_valid; assumption|].
  split; [apply UnmarshalText_valid; assumption|].
  apply octets_bytes; [rewrite length_map; exact Hlen|].
  apply Forall_map. eapply Forall_impl; [exact Hal | exact in_alphabet_sym].
Qed.

Lemma UnmarshalText_overwrites_witness :
  exists id,
    UnmarshalText (replicate 12 0) (bytes_of_string "9m4e2mr0ui3e8a215n4g") = Done (id, None) /\
    UnmarshalText (replicate 12 7) (bytes_of_string "9m4e2mr0ui3e8a215n4g") = Done (id, None) /\ wf_ID id.
Proof.
  apply UnmarshalText_overwrites;
    [reflexivity | reflexivity | reflexivity
     | apply in_alphabet_forallb; vm_compute; reflexivity].
Defined.

(** ** Out of bounds *)

(** X7. [decode] does no bounds check of its own: on a source shorter than
    20 bytes it panics at the first missing index, whatever the bytes are.
    [UnmarshalText] is what keeps such input away from it. *)
Theorem decode_short_panics (id : ID) (src : list Z) :
  (length src < encodedLen)%nat ->
  decode id src = Panics (IndexOutOfRange (length src) (length src)).
Proof.
  intros Hlen. unfold encodedLen in Hlen.
  do 20 (destruct src as [|? src];
         [unfold decode; cbn [index lookup list_lookup rbind length]; reflexivity|]).
  simpl in Hlen. lia.
Qed.

Lemma decode_short_panics_witness :
  decode (replicate 12 0) (bytes_of_string "123")
  = Panics (IndexOutOfRange (length (bytes_of_string "123"))
                            (length (bytes_of_string "123"))).
Proof. apply decode_short_panics. simpl. unfold encodedLen. lia. Defined.

Lemma put_fail dst k s :
  is_sym s -> (length dst <= k)%nat ->
  put dst k s = Panics (IndexOutOfRange k (length dst)).
Proof.
  intros Hs Hk. unfold put. rewrite (index_encoding s Hs). simpl.
  unfold store. apply Nat.ltb_ge in Hk. rewrite Hk. reflexivity.
Qed.

Lemma put_all_short syms : forall dst k,
  Forall is_sym syms -> (k <= length dst)%nat -> (length dst < k + length syms)%nat ->
  put_all dst k syms = Panics (IndexOutOfRange (length dst) (length dst)).
Proof.
  induction syms as [|s syms IH]; intros dst k Hs Hk Hlt.
  - simpl in Hlt. lia.
  - apply Forall_cons_1 in Hs as [Hs Hr]. cbn [put_all].
    destruct (Nat.eq_dec k (length dst)) as [->|Hne].
    + rewrite put_fail by (first [exact Hs | lia]).
      destruct syms; reflexivity.
    + destruct syms as [|s' syms]; [simpl in Hlt; lia|].
      rewrite put_ok by (first [exact Hs | lia]). cbn [rbind].
      rewrite (IH (<[k:=enc_char s]> dst) (S k) Hr);
        rewrite ?length_insert; [reflexivity | lia | simpl in Hlt |- *; lia].
Qed.

Lemma encode_put_all dst id :
  wf_ID id -> encode dst id = put_all dst 0 (symbols id).
Proof.
  intros [Hlen Hb].
  do 12 (destruct id as [|? id]; [discriminate Hlen|]).
  destruct id; [|discriminate Hlen].
  split_bytes Hb.
  unfold encode.
  cbn [index lookup list_lookup rbind].
  rewrite !enc_line_6_2, !enc_line_4_4, !enc_line_7_1, !enc_line_5_3 by assumption.
  rewrite !enc_line_1, !enc_line_2, !enc_line_pad, !enc_line_hi5, !enc_line_lo5
    by assumption.
  reflexivity.
Qed.

(** X8. [encode] panics when the destination buffer is shorter than 20
    bytes, at the first index past its end. *)
Theorem encode_short_dst_panics (dst : list Z) (id : ID) :
  wf_ID id -> (length dst < encodedLen)%nat ->
  encode dst id = Panics (IndexOutOfRange (length dst) (length dst)).
Proof.
  intros Hid Hlen. rewrite (encode_put_all dst id Hid).
  apply put_all_short.
  - apply symbols_sym, Hid.
  - lia.
  - rewrite symbols_length by exact Hid. exact Hlen.
Qed.

Lemma encode_short_dst_panics_witness :
  encode (make 3) (replicate 12 0)
  = Panics (IndexOutOfRange (length (make 3)) (length (make 3))).
Proof.
  apply encode_short_dst_panics;
    [split; [reflexivity | bytes_ok] | simpl; unfold encodedLen; lia].
Defined.


(** ** The random part and the timestamp as numbers *)

Lemma shl64_small b k :
  0 <= k -> 0 <= b -> b * 2 ^ k < 2 ^ 64 -> Go.shl64 b k = b * 2 ^ k.
Proof.
  intros Hk Hb Hlt. unfold Go.shl64, Go.uint64.
  rewrite Z.shiftl_mul_pow2 by exact Hk.
  apply Z.mod_small. split; [nia | exact Hlt].
Qed.

Lemma or_hi_lo h l k :
  0 <= k -> 0 <= l < 2 ^ k -> h mod 2 ^ k = 0 -> h .| l = h + l.
Proof.
  intros Hk Hl Hh. unfold Go.or.
  assert (E : h = h / 2 ^ k * 2 ^ k).
  { pose proof (Z.div_mod h (2 ^ k) ltac:(lia)). lia. }
  rewrite E at 1. rewrite Z.lor_comm, lor_shiftl_add by assumption. lia.
Qed.

Lemma Counter_bytes id :
  length id = rawLen -> is_bytes (drop 6 id) ->
  Counter id = Done (be_val 256 (drop 6 id)).
Proof.
  intros Hlen Hb.
  do 12 (destruct id as [|? id]; [discriminate Hlen|]).
  destruct id; [|discriminate Hlen].
  cbn [drop] in Hb. split_bytes Hb. unfold is_byte in *.
  unfold Counter. cbn [drop index lookup list_lookup rbind].
  f_equal.
  rewrite !shl64_small by lia.
  rewrite (or_hi_lo _ (z6 * 2 ^ 32) 40) by (first [lia | Z.div_mod_to_equations; lia]).
  rewrite (or_hi_lo _ (z7 * 2 ^ 24) 32) by (first [lia | Z.div_mod_to_equations; lia]).
  rewrite (or_hi_lo _ (z8 * 2 ^ 16) 24) by (first [lia | Z.div_mod_to_equations; lia]).
  rewrite (or_hi_lo _ (z9 * 2 ^ 8) 16) by (first [lia | Z.div_mod_to_equations; lia]).
  rewrite (or_hi_lo _ z10 8) by (first [lia | Z.div_mod_to_equations; lia]).
  unfold Go.uint64, be_val, fold_left.
  rewrite Z.mod_small by lia. lia.
Qed.

Lemma is_bytes_take n l : is_bytes l -> is_bytes (take n l).
Proof. apply Forall_take. Qed.

Lemma is_bytes_drop n l : is_bytes l -> is_bytes (drop n l).
Proof. apply Forall_drop. Qed.

Lemma be_val_inj B l1 : forall l2,
  0 < B -> length l1 = length l2 ->
  Forall (is_digit B) l1 -> Forall (is_digit B) l2 ->
  be_val B l1 = be_val B l2 -> l1 = l2.
Proof.
  induction l1 as [|a l1 IH]; intros [|b l2] HB Hlen H1 H2 E;
    try discriminate Hlen; [reflexivity|].
  apply Forall_cons_1 in H1 as [Ha H1]. apply Forall_cons_1 in H2 as [Hb H2].
  injection Hlen as Hlen.
  rewrite !(be_val_cons B HB), <- Hlen in E.
  pose proof (be_val_range B HB l1 H1) as R1.
  pose proof (be_val_range B HB l2 H2) as R2. rewrite <- Hlen in R2.
  assert (Hp : 0 < B ^ Z.of_nat (length l1)) by (apply Z.pow_pos_nonneg; lia).
  destruct (Z.div_mod_unique (B ^ Z.of_nat (length l1)) a b
              (be_val B l1) (be_val B l2)) as [Eq Er];
    [left; exact R1 | left; exact R2 | lia |].
  subst b. f_equal. apply IH; assumption.
Qed.

(** X9. [Counter] never panics on an identifier and returns bytes
    [6..12) read as a big-endian number, which is below 2^48. *)
Theorem Counter_value (id : ID) :
  wf_ID id ->
  exists n,
    Counter id = Done n /\ n = be_val 256 (drop 6 id) /\ 0 <= n < 2 ^ 48.
Proof.
  intros [Hlen Hb]. exists (be_val 256 (drop 6 id)).
  split; [apply Counter_bytes; [exact Hlen | apply is_bytes_drop, Hb]|].
  split; [reflexivity|].
  pose proof (be_val_range 256 ltac:(lia) (drop 6 id) (is_bytes_drop 6 id Hb)) as R.
  rewrite length_drop, Hlen in R. exact R.
Qed.

Lemma Counter_value_witness :
  exists n,
    Counter [0x4d; 0x88; 0xe1; 0x5b; 0x60; 0xf4; 0x86; 0xe4; 0x28; 0x41; 0x2d; 0xc9] = Done n /\
    n = be_val 256 (drop 6 [0x4d; 0x88; 0xe1; 0x5b; 0x60; 0xf4; 0x86; 0xe4; 0x28; 0x41; 0x2d; 0xc9]) /\ 0 <= n < 2 ^ 48.
Proof. apply Counter_value. split; [reflexivity | bytes_ok]. Defined.

Lemma int64_inj a b :
  0 <= a < 2 ^ 64 -> 0 <= b < 2 ^ 64 -> Go.int64 a = Go.int64 b -> a = b.
Proof. unfold Go.int64. intros Ha Hb E. Z.div_mod_to_equations. lia. Qed.

(** X10. [Time] and [Counter] together determine the identifier: two
    identifiers with the same time and the same counter are equal. *)
Theorem Time_Counter_determine (x y : ID) :
  wf_ID x -> wf_ID y ->
  Time x = Time y -> Counter x = Counter y -> x = y.
Proof.
  intros [Lx Bx] [Ly By] ET EC.
  rewrite (Time_bytes x Lx (is_bytes_take 6 x Bx)) in ET.
  rewrite (Time_bytes y Ly (is_bytes_take 6 y By)) in ET.
  rewrite (Counter_bytes x Lx (is_bytes_drop 6 x Bx)) in EC.
  rewrite (Counter_bytes y Ly (is_bytes_drop 6 y By)) in EC.
  injection ET as ET. injection EC as EC.
  pose proof (be_val_range 256 ltac:(lia) (take 6 x) (is_bytes_take 6 x Bx)) as Rx.
  pose proof (be_val_range 256 ltac:(lia) (take 6 y) (is_bytes_take 6 y By)) as Ry.
  rewrite length_take, Lx in Rx. rewrite length_take, Ly in Ry.
  change (Z.of_nat (6 `min` rawLen)) with 6 in Rx, Ry.
  apply int64_inj in ET; [|lia|lia].
  assert (E1 : take 6 x = take 6 y).
  { apply (be_val_inj 256);
      [lia | rewrite !length_take; congruence
       | apply is_bytes_take, Bx | apply is_bytes_take, By | lia]. }
  assert (E2 : drop 6 x = drop 6 y).
  { apply (be_val_inj 256);
      [lia | rewrite !length_drop; congruence
       | apply is_bytes_drop, Bx | apply is_bytes_drop, By | exact EC]. }
  rewrite <- (take_drop 6 x), <- (take_drop 6 y), E1, E2. reflexivity.
Qed.

Lemma Time_Counter_determine_witness : [0x4d; 0x88; 0xe1; 0x5b; 0x60; 0xf4; 0x86; 0xe4; 0x28; 0x41; 0x2d; 0xc9] = [0x4d; 0x88; 0xe1; 0x5b; 0x60; 0xf4; 0x86; 0xe4; 0x28; 0x41; 0x2d; 0xc9].
Proof.
  apply Time_Counter_determine;
    [split; [reflexivity | bytes_ok] | split; [reflexivity | bytes_ok]
     | reflexivity | reflexivity].
Defined.

(** X11. [Time] never panics on an identifier: its result is bytes
    [0..6) read as a big-endian number and shifted left by 16 bits, taken as
    an int64; it is a multiple of 2^16, and it is negative exactly when the
    first byte is 128 or more. *)
Theorem Time_any_id (id : ID) :
  wf_ID id ->
  exists T,
    Time id = Done T /\
    T = Go.int64 (be_val 256 (take 6 id) * 2 ^ 16) /\
    T mod 2 ^ 16 = 0 /\ - 2 ^ 63 <= T < 2 ^ 63 /\
    (0 <= T <-> nth 0 id 0 < 128).
Proof.
  intros [Hlen Hb]. eexists.
  split; [apply Time_bytes; [exact Hlen | apply is_bytes_take, Hb]|].
  split; [reflexivity|].
  do 12 (destruct id as [|? id]; [discriminate Hlen|]).
  destruct id; [|discriminate Hlen].
  split_bytes Hb. unfold is_byte in *.
  cbn [take nth]. unfold be_val, fold_left, Go.int64.
  repeat split; Z.div_mod_to_equations; lia.
Qed.

Lemma Time_any_id_witness :
  exists T,
    Time [0x4d; 0x88; 0xe1; 0x5b; 0x60; 0xf4; 0x86; 0xe4; 0x28; 0x41; 0x2d; 0xc9] = Done T /\
    T = Go.int64 (be_val 256 (take 6 [0x4d; 0x88; 0xe1; 0x5b; 0x60; 0xf4; 0x86; 0xe4; 0x28; 0x41; 0x2d; 0xc9]) * 2 ^ 16) /\
    T mod 2 ^ 16 = 0 /\ - 2 ^ 63 <= T < 2 ^ 63 /\
    (0 <= T <-> nth 0 [0x4d; 0x88; 0xe1; 0x5b; 0x60; 0xf4; 0x86; 0xe4; 0x28; 0x41; 0x2d; 0xc9] 0 < 128).
Proof. apply Time_any_id. split; [reflexivity | bytes_ok]. Defined.

(** ** Ordering by time *)

Lemma lex_leb_app_lt p1 : forall p2 r1 r2,
  length p1 = length p2 -> lex_leb p2 p1 = false ->
  lex_leb (p1 ++ r1) (p2 ++ r2) = true /\ lex_leb (p2 ++ r2) (p1 ++ r1) = false.
Proof.
  induction p1 as [|a p1 IH]; intros [|b p2] r1 r2 Hlen H;
    try discriminate Hlen; [discriminate H|].
  injection Hlen as Hlen. simpl in H |- *.
  destruct (Z.ltb_spec b a) as [Hba|Hba]; [discriminate H|].
  destruct (Z.ltb_spec a b) as [Hab|Hab]; [split; reflexivity|].
  apply IH; assumption.
Qed.

Lemma prefix_bytes v :
  is_bytes [Go.byte (v >>> 56); Go.byte (v >>> 48); Go.byte (v >>> 40);
            Go.byte (v >>> 32); Go.byte (v >>> 24); Go.byte (v >>> 16)].
Proof. repeat (apply Forall_cons_2; [apply byte_is_byte|]). apply Forall_nil_2. Qed.

Lemma uint64_nonneg t : 0 <= t < 2 ^ 63 -> Go.uint64 t = t.
Proof. intros Ht. unfold Go.uint64. apply Z.mod_small. lia. Qed.

(** X12. Identifiers are ordered by time: for non-negative timestamps, an
    identifier made at a later 2^16-nanosecond tick is strictly greater in
    byte-lexicographic order, whatever the random bytes are. *)
Theorem NewFromTime_time_ordered (t1 t2 : Z) (w1 w2 : World) :
  0 <= t1 -> t2 < 2 ^ 63 -> t1 / 2 ^ 16 < t2 / 2 ^ 16 ->
  (6 <= length (entropy w1))%nat -> (6 <= length (entropy w2))%nat ->
  exists id1 id2 w1' w2',
    NewFromTime t1 w1 = Done (id1, w1') /\
    NewFromTime t2 w2 = Done (id2, w2') /\
    lex_leb id1 id2 = true /\ lex_leb id2 id1 = false.
Proof.
  intros H1 H2 Hlt He1 He2.
  assert (Ht1 : 0 <= t1 < 2 ^ 63) by (Z.div_mod_to_equations; lia).
  assert (Ht2 : 0 <= t2 < 2 ^ 63) by (Z.div_mod_to_equations; lia).
  do 4 eexists.
  split; [apply NewFromTime_ok, He1|].
  split; [apply NewFromTime_ok, He2|].
  apply lex_leb_app_lt; [reflexivity|].
  rewrite (lex_leb_be_val 256 ltac:(lia));
    [| reflexivity | apply prefix_bytes | apply prefix_bytes].
  rewrite !high48 by apply uint64_range.
  rewrite !uint64_nonneg by assumption.
  apply Z.leb_gt. exact Hlt.
Qed.

Lemma NewFromTime_time_ordered_witness :
  exists id1 id2 w1' w2',
    NewFromTime 65535 (mkWorld 0 [255; 255; 255; 255; 255; 255]) = Done (id1, w1') /\
    NewFromTime 65536 (mkWorld 0 [0; 0; 0; 0; 0; 0]) = Done (id2, w2') /\
    lex_leb id1 id2 = true /\ lex_leb id2 id1 = false.
Proof.
  apply NewFromTime_time_ordered;
    [lia | lia | vm_compute; reflexivity | simpl; lia | simpl; lia].
Defined.

Lemma shr_tick v1 v2 k :
  v1 / 2 ^ 16 = v2 / 2 ^ 16 -> 16 <= k -> v1 >>> k = v2 >>> k.
Proof.
  intros E Hk. unfold Go.shr. rewrite !Z.shiftr_div_pow2 by lia.
  replace k with (16 + (k - 16)) by lia.
  rewrite Z.pow_add_r by lia.
  rewrite <- !Z.div_div by lia. rewrite E. reflexivity.
Qed.

(** X13. Two timestamps within one 2^16-nanosecond tick give the same
    bytes [0..6); with the same random bytes the identifiers are equal. *)
Theorem NewFromTime_same_tick (t1 t2 : Z) (w1 w2 : World) :
  Go.uint64 t1 / 2 ^ 16 = Go.uint64 t2 / 2 ^ 16 ->
  (6 <= length (entropy w1))%nat -> (6 <= length (entropy w2))%nat ->
  exists id1 id2 w1' w2',
    NewFromTime t1 w1 = Done (id1, w1') /\
    NewFromTime t2 w2 = Done (id2, w2') /\
    take 6 id1 = take 6 id2 /\
    (take 6 (entropy w1) = take 6 (entropy w2) -> id1 = id2).
Proof.
  intros E He1 He2.
  do 4 eexists.
  split; [apply NewFromTime_ok, He1|].
  split; [apply NewFromTime_ok, He2|].
  rewrite !(shr_tick (Go.uint64 t1) (Go.uint64 t2)) by (first [exact E | lia]).
  split; [reflexivity|]. intros ->. reflexivity.
Qed.

Lemma NewFromTime_same_tick_witness :
  exists id1 id2 w1' w2',
    NewFromTime 1 (mkWorld 0 [1; 2; 3; 4; 5; 6]) = Done (id1, w1') /\
    NewFromTime 65535 (mkWorld 0 [1; 2; 3; 4; 5; 6]) = Done (id2, w2') /\
    take 6 id1 = take 6 id2 /\
    (take 6 (entropy (mkWorld 0 [1; 2; 3; 4; 5; 6])) = take 6 (entropy (mkWorld 0 [1; 2; 3; 4; 5; 6])) -> id1 = id2).
Proof.
  apply NewFromTime_same_tick;
    [vm_compute; reflexivity | simpl; lia | simpl; lia].
Defined.

(** ** The counter *)

Lemma NewWithConcurrence_mode level t w :
  level = NANO \/ level = LOW \/ level = MEDIUM \/ level = HIGH ->
  NewWithConcurrence level t w =
  match NewFromTime t w with
  | Done (id, w') =>
      Done (id, mkWorld (Go.uint64 (atomicCount w' + 1)) (entropy w'))
  | Panics p => Panics p
  end.
Proof.
  intros H. unfold NewWithConcurrence, mbind.
  destruct (NewFromTime t w) as [[id w']|p]; [|reflexivity].
  destruct H as [-> | [-> | [-> | ->]]]; reflexivity.
Qed.

(** X14. [NewWithConcurrence] takes six bytes from the random source and
    returns the identifier [NewFromTime] made; for each of the four modes it
    advances the shared counter by one, wrapping at 2^64, and for any other
    mode value it leaves the counter as it was. *)
Theorem NewWithConcurrence_effect (level : Concurrency) (t : Z) (w : World) :
  (6 <= length (entropy w))%nat ->
  exists id w1 w2,
    NewFromTime t w = Done (id, w1) /\
    NewWithConcurrence level t w = Done (id, w2) /\
    entropy w2 = drop 6 (entropy w) /\
    atomicCount w2 =
      (if (0 <=? level) && (level <=? 3)
       then Go.uint64 (atomicCount w + 1) else atomicCount w).
Proof.
  intros He. unfold NewWithConcurrence, mbind.
  rewrite (NewFromTime_ok t w He).
  unfold NANO, LOW, MEDIUM, HIGH.
  destruct (Z.eqb_spec level 0) as [-> | H0];
    [do 3 eexists; repeat split|].
  destruct (Z.eqb_spec level 1) as [-> | H1];
    [do 3 eexists; repeat split|].
  destruct (Z.eqb_spec level 2) as [-> | H2];
    [do 3 eexists; repeat split|].
  destruct (Z.eqb_spec level 3) as [-> | H3];
    [do 3 eexists; repeat split|].
  do 3 eexists. split; [reflexivity|]. split; [reflexivity|].
  split; [reflexivity|]. cbn [atomicCount].
  destruct (Z.leb_spec 0 level); destruct (Z.leb_spec level 3);
    simpl; try reflexivity; lia.
Qed.

Lemma NewWithConcurrence_effect_witness :
  exists id w1 w2,
    NewFromTime 1 (mkWorld (2 ^ 64 - 1) [1; 2; 3; 4; 5; 6]) = Done (id, w1) /\
    NewWithConcurrence HIGH 1 (mkWorld (2 ^ 64 - 1) [1; 2; 3; 4; 5; 6]) = Done (id, w2) /\
    entropy w2 = drop 6 (entropy (mkWorld (2 ^ 64 - 1) [1; 2; 3; 4; 5; 6])) /\
    atomicCount w2 =
      (if (0 <=? HIGH) && (HIGH <=? 3)
       then Go.uint64 (atomicCount (mkWorld (2 ^ 64 - 1) [1; 2; 3; 4; 5; 6]) + 1)
       else atomicCount (mkWorld (2 ^ 64 - 1) [1; 2; 3; 4; 5; 6])).
Proof. apply NewWithConcurrence_effect. simpl. lia. Defined.



(** ** Composition *)

Lemma generated_wf v e :
  (6 <= length e)%nat -> is_bytes e ->
  wf_ID ([Go.byte (v >>> 56); Go.byte (v >>> 48); Go.byte (v >>> 40);
          Go.byte (v >>> 32); Go.byte (v >>> 24); Go.byte (v >>> 16)]
           ++ take 6 e).
Proof.
  intros He Hb. split.
  - rewrite length_app, length_take, Nat.min_l by exact He. reflexivity.
  - apply Forall_app_2; [apply prefix_bytes | apply is_bytes_take, Hb].
Qed.

Lemma NewFromTime_wf t w :
  (6 <= length (entropy w))%nat -> is_bytes (entropy w) ->
  exists id w', NewFromTime t w = Done (id, w') /\ wf_ID id.
Proof.
  intros He Hb. do 2 eexists. split; [apply NewFromTime_ok, He|].
  apply generated_wf; assumption.
Qed.

(** X16. An identifier from [New] is a 12-byte array; [NewConcurrence]
    at the same clock reading returns the same identifier and advances the
    counter by one; [String] gives it a 20-character text that [FromString]
    parses back to it. *)
Theorem New_String_FromString (now : Z) (w : World) :
  (6 <= length (entropy w))%nat -> is_bytes (entropy w) ->
  exists id w' text,
    New now w = Done (id, w') /\ wf_ID id /\
    NewConcurrence now w =
      Done (id, mkWorld (Go.uint64 (atomicCount w' + 1)) (entropy w')) /\
    String id = Done text /\ length text = encodedLen /\
    FromString text = Done (id, None).
Proof.
  intros He Hb.
  destruct (NewFromTime_wf now w He Hb) as (id & w' & Hn & Hwf).
  exists id, w', (map enc_char (symbols id)).
  split; [exact Hn|]. split; [exact Hwf|].
  split.
  { unfold NewConcurrence.
    rewrite NewWithConcurrence_mode by (right; left; reflexivity).
    rewrite Hn. reflexivity. }
  split; [unfold String; apply encode_wf; [reflexivity | exact Hwf]|].
  split; [rewrite length_map; apply symbols_length, Hwf|].
  apply FromString_String, Hwf.
Qed.

Lemma New_String_FromString_witness :
  exists id w' text,
    New 1700000000000000000 (mkWorld 0 [1; 2; 3; 4; 5; 6]) = Done (id, w') /\ wf_ID id /\
    NewConcurrence 1700000000000000000 (mkWorld 0 [1; 2; 3; 4; 5; 6]) =
      Done (id, mkWorld (Go.uint64 (atomicCount w' + 1)) (entropy w')) /\
    String id = Done text /\ length text = encodedLen /\
    FromString text = Done (id, None).
Proof. apply New_String_FromString; [simpl; lia | bytes_ok]. Defined.

(** ** The SQL adapter, both ways *)

Lemma copy_full id b :
  length id = rawLen -> length b = 12%nat -> copy id b = b.
Proof.
  intros Hid Hb. unfold copy. rewrite Hid, Hb. simpl Nat.min.
  rewrite <- Hb at 1. rewrite firstn_all.
  rewrite drop_ge by (rewrite Hid; unfold rawLen; lia). apply app_nil_r.
Qed.

(** X17. What [Value] writes, [Scan] reads back: the raw 12-byte form, and
    also the text form that [String] gives, restore the identifier with no
    error. *)
Theorem Scan_Value_roundtrip (x id0 : ID) :
  wf_ID x -> length id0 = rawLen ->
  snd (Value x) = None /\
  Scan id0 (fst (Value x)) = Done (x, None) /\
  exists text, String x = Done text /\ Scan id0 (VString text) = Done (x, None).
Proof.
  intros Hx Hid. split; [reflexivity|]. split.
  - destruct Hx as [Hx _]. unfold Value, fst, Scan. rewrite Hx. simpl negb. cbv iota.
    rewrite copy_full by assumption. reflexivity.
  - exists (map enc_char (symbols x)).
    split; [apply String_wf, Hx|]. simpl Scan.
    rewrite UnmarshalText_valid.
    + rewrite map_dec_enc by (apply symbols_sym, Hx).
      rewrite octets_symbols by exact Hx. reflexivity.
    + exact Hid.
    + rewrite length_map. apply symbols_length, Hx.
    + apply text_alphabet, symbols_sym, Hx.
Qed.

Lemma Scan_Value_roundtrip_witness :
  snd (Value [0x4d; 0x88; 0xe1; 0x5b; 0x60; 0xf4; 0x86; 0xe4; 0x28; 0x41; 0x2d; 0xc9]) = None /\
  Scan (replicate 12 0) (fst (Value [0x4d; 0x88; 0xe1; 0x5b; 0x60; 0xf4; 0x86; 0xe4; 0x28; 0x41; 0x2d; 0xc9])) = Done ([0x4d; 0x88; 0xe1; 0x5b; 0x60; 0xf4; 0x86; 0xe4; 0x28; 0x41; 0x2d; 0xc9], None) /\
  exists text,
    String [0x4d; 0x88; 0xe1; 0x5b; 0x60; 0xf4; 0x86; 0xe4; 0x28; 0x41; 0x2d; 0xc9] = Done text /\
    Scan (replicate 12 0) (VString text) = Done ([0x4d; 0x88; 0xe1; 0x5b; 0x60; 0xf4; 0x86; 0xe4; 0x28; 0x41; 0x2d; 0xc9], None).
Proof.
  apply Scan_Value_roundtrip; [split; [reflexivity | bytes_ok] | reflexivity].
Defined.

(** X18. [Scan] never panics, and whenever it returns an error the
    receiver is left as it was. *)
Theorem Scan_failure_keeps_receiver (id : ID) (v : value) :
  length id = rawLen ->
  (forall s, v = VString s -> is_bytes s) ->
  exists id' err,
    Scan id v = Done (id', err) /\ (err <> None -> id' = id).
Proof.
  intros Hid Hs. destruct v as [s|b|T]; simpl Scan.
  - destruct (UnmarshalText_cases id s Hid (Hs s eq_refl))
      as [(_ & _ & HU)|(_ & HU)]; rewrite HU.
    + do 2 eexists. split; [reflexivity|]. intros H. contradiction.
    + do 2 eexists. split; [reflexivity|]. reflexivity.
  - destruct (negb _).
    + do 2 eexists. split; [reflexivity|]. reflexivity.
    + do 2 eexists. split; [reflexivity|]. intros H. contradiction.
  - do 2 eexists. split; [reflexivity|]. reflexivity.
Qed.

Lemma Scan_failure_keeps_receiver_witness :
  exists id' err,
    Scan (replicate 12 7) (VBytes [1; 2; 3]) = Done (id', err) /\
    (err <> None -> id' = replicate 12 7).
Proof.
  apply Scan_failure_keeps_receiver; [reflexivity|].
  intros s Hs. discriminate Hs.
Defined.

(** ** Ordering of the text by time *)

Lemma lex_leb_text x y :
  wf_ID x -> wf_ID y ->
  lex_leb (map enc_char (symbols x)) (map enc_char (symbols y)) = lex_leb x y.
Proof.
  intros Hx Hy.
  rewrite (lex_leb_map enc_char is_sym enc_char_mono)
    by (apply symbols_sym; assumption).
  rewrite (lex_leb_be_val 32 ltac:(lia) (symbols x) (symbols y)).
  - rewrite !be_val_symbols by assumption.
    destruct Hx as [Lx Bx], Hy as [Ly By].
    rewrite (lex_leb_be_val 256 ltac:(lia) x y);
      [| congruence | exact Bx | exact By].
    destruct (Z.leb_spec (be_val 256 x) (be_val 256 y));
      [apply Z.leb_le | apply Z.leb_gt]; lia.
  - rewrite !symbols_length by assumption. reflexivity.
  - exact (symbols_sym x Hx).
  - exact (symbols_sym y Hy).
Qed.

(** X19. The text is ordered by time: for non-negative timestamps, the
    text of an identifier made at a later 2^16-nanosecond tick is strictly
    greater in lexicographic order. *)
Theorem NewFromTime_text_ordered (t1 t2 : Z) (w1 w2 : World) :
  0 <= t1 -> t2 < 2 ^ 63 -> t1 / 2 ^ 16 < t2 / 2 ^ 16 ->
  (6 <= length (entropy w1))%nat -> (6 <= length (entropy w2))%nat ->
  is_bytes (entropy w1) -> is_bytes (entropy w2) ->
  exists id1 id2 w1' w2' s1 s2,
    NewFromTime t1 w1 = Done (id1, w1') /\
    NewFromTime t2 w2 = Done (id2, w2') /\
    String id1 = Done s1 /\ String id2 = Done s2 /\
    lex_leb s1 s2 = true /\ lex_leb s2 s1 = false.
Proof.
  intros H1 H2 Hlt He1 He2 Hb1 Hb2.
  assert (Ht1 : 0 <= t1 < 2 ^ 63) by (Z.div_mod_to_equations; lia).
  assert (Ht2 : 0 <= t2 < 2 ^ 63) by (Z.div_mod_to_equations; lia).
  do 6 eexists.
  split; [apply NewFromTime_ok, He1|].
  split; [apply NewFromTime_ok, He2|].
  split; [apply String_wf, generated_wf; assumption|].
  split; [apply String_wf, generated_wf; assumption|].
  rewrite !lex_leb_text by (apply generated_wf; assumption).
  apply lex_leb_app_lt; [reflexivity|].
  rewrite (lex_leb_be_val 256 ltac:(lia));
    [| reflexivity | apply prefix_bytes | apply prefix_bytes].
  rewrite !high48 by apply uint64_range.
  rewrite !uint64_nonneg by assumption.
  apply Z.leb_gt. exact Hlt.
Qed.

Lemma NewFromTime_text_ordered_witness :
  exists id1 id2 w1' w2' s1 s2,
    NewFromTime 65535 (mkWorld 0 [255; 255; 255; 255; 255; 255]) = Done (id1, w1') /\
    NewFromTime 65536 (mkWorld 0 [0; 0; 0; 0; 0; 0]) = Done (id2, w2') /\
    String id1 = Done s1 /\ String id2 = Done s2 /\
    lex_leb s1 s2 = true /\ lex_leb s2 s1 = false.
Proof.
  apply NewFromTime_text_ordered;
    [lia | lia | vm_compute; reflexivity | simpl; lia | simpl; lia
     | bytes_ok | bytes_ok].
Defined.
